(** * spinny-bot: the wheel draw, the elimination rounds and the spin angle

    A shallow embedding of the selection and animation logic of [bot.js]
    (and of the stand-alone test script that repeats [spinWheel] and the
    elimination loop), with the properties of that logic proved below.

    Conventions of the embedding.
    - A JavaScript array is a heap cell holding the list of its elements;
      array variables are locations, so that copies ([slice], spread) and
      in-place updates ([splice], [a[i] = v]) are told apart.
    - [Math.random()] reads the next element of a stream of draws; a draw is
      a rational in [0, 1), which is what the language guarantees.  Index
      arithmetic ([Math.floor (r * n)]) is exact rational arithmetic.
    - Angles are real numbers: JavaScript doubles are idealised as reals in
      the animation part ([Math.PI] is [PI]).  Where a statement is about the
      very number the program computes, the formula is also given in
      binary64, the arithmetic of JavaScript numbers.
    - What the handler sends to the channel is an event appended to a log;
      the answer of the cancel button is read from a stream of booleans. *)

From Stdlib Require Import Floats.PrimFloat.
From Stdlib Require Import QArith Qround Reals Lra Lia.
From stdpp Require Import gmap list strings.

(** ** Values and arrays *)

(** A guild member, as far as the handler looks at it. *)
Record member := Member { member_id : string; displayName : string }.

Inductive value :=
| undefined
| str (s : string)
| obj (m : member).

(** [a[i]] for an integer index: [undefined] outside [0 .. length-1]. *)
Definition get (a : list value) (i : Z) : value :=
  if decide (0 ≤ i)%Z then default undefined (a !! Z.to_nat i) else undefined.

(** [a[i] = v].  Inside the array the element is replaced; past the end the
    array grows, the gap reading as [undefined].  A negative key is an
    ordinary property and leaves the elements alone (the property itself is
    not kept here; no index of this program is negative, see
    [floor_mul_range]). *)
Definition set (a : list value) (i : Z) (v : value) : list value :=
  if decide (i < 0)%Z then a
  else if decide (Z.to_nat i < length a) then <[Z.to_nat i := v]> a
  else a ++ replicate (Z.to_nat i - length a) undefined ++ [v].

(** The elements left by [a.splice(start, deleteCount)]: a negative [start]
    counts from the end, both arguments are clamped to the array. *)
Definition splice (a : list value) (start deleteCount : Z) : list value :=
  let len := Z.of_nat (length a) in
  let actualStart :=
    if decide (start < 0)%Z then Z.max (len + start) 0 else Z.min start len in
  let actualDeleteCount := Z.min (Z.max deleteCount 0) (len - actualStart) in
  take (Z.to_nat actualStart) a
    ++ drop (Z.to_nat (actualStart + actualDeleteCount)) a.

(** [v.displayName]: a member has one, a string has none, and reading a
    property of [undefined] throws a TypeError ([None]). *)
Definition displayName_of (v : value) : option value :=
  match v with
  | obj m => Some (str (displayName m))
  | str _ => Some undefined
  | undefined => None
  end.

(** ** The random source *)

Definition in_unit (q : Q) : bool := Qle_bool 0 q && negb (Qle_bool 1 q).

(** One result of [Math.random()]: a number [r] with [0 <= r < 1]. *)
Record draw := Draw { draw_val : Q; draw_range : in_unit draw_val = true }.

(** [Math.floor(r * n)] *)
Definition floor_mul (r : Q) (n : nat) : Z :=
  Qfloor (r * inject_Z (Z.of_nat n)).

(** ** Memory: the heap of arrays and the stream of draws *)

Definition loc := nat.

Record mem := Mem { heap : gmap loc (list value); rng : nat → draw }.

(** State passing. *)
Definition St (S A : Type) : Type := S → A * S.

Definition ret {S A} (a : A) : St S A := λ s, (a, s).

Definition bind {S A B} (m : St S A) (k : A → St S B) : St S B :=
  λ s, let '(a, s') := m s in k a s'.

Notation "'let*' x ':=' m 'in' k" := (bind m (λ x, k))
  (at level 10, x name, m at level 100, k at level 200, only parsing).
Notation "m ;; k" := (bind m (λ _, k))
  (at level 100, k at level 200, right associativity, only parsing).

Definition Js (A : Type) : Type := St mem A.

(** [Math.random()] *)
Definition random : Js draw :=
  λ s, (rng s 0, Mem (heap s) (λ n, rng s (S n))).

(** A new array object with the given elements. *)
Definition alloc (a : list value) : Js loc :=
  λ s, let l := fresh (dom (heap s)) in (l, Mem (<[l := a]> (heap s)) (rng s)).

(** The elements of the array at [l]. *)
Definition read (l : loc) : Js (list value) :=
  λ s, (default [] (heap s !! l), s).

(** In-place update of the array at [l]. *)
Definition modify (l : loc) (f : list value → list value) : Js unit :=
  λ s, (tt, Mem (<[l := f (default [] (heap s !! l))]> (heap s)) (rng s)).

(** ** The draw and the presentation order (bot.js) *)

(** [spinWheel(users)]: [null] ([None]) for an empty array, before the random
    source is touched; otherwise [Math.floor(Math.random() * users.length)].
    The test script has the same function. *)
Definition spinWheel (users : loc) : Js (option Z) :=
  let* a := read users in
  if length a =? 0 then ret None
  else
    let* r := random in
    ret (Some (floor_mul (draw_val r) (length a))).

(** The loop of [shuffleArray]: [for (let i = a.length - 1; i > 0; i--)],
    each turn drawing [j = Math.floor(Math.random() * (i + 1))] and swapping
    [a[i]] and [a[j]] through the pair [[a[j], a[i]]]. *)
Fixpoint shuffle_loop (a : loc) (i : nat) : Js unit :=
  match i with
  | O => ret tt
  | S i' =>
      let* r := random in
      let j := floor_mul (draw_val r) (i + 1) in
      let* xs := read a in
      let aj := get xs j in
      let ai := get xs (Z.of_nat i) in
      modify a (λ ys, set (set ys (Z.of_nat i) aj) j ai) ;;
      shuffle_loop a i'
  end.

(** [shuffleArray(arr)]: works on [arr.slice()], a copy, and returns it. *)
Definition shuffleArray (arr : loc) : Js loc :=
  let* xs := read arr in
  let* a := alloc xs in
  shuffle_loop a (length xs - 1) ;;
  ret a.

(** [orderedForWinner(names, winnerIndex)] *)
Definition orderedForWinner (names : loc) (winnerIndex : Z) : Js loc :=
  let* ns := read names in
  if length ns =? 0 then alloc []
  else
    let winner := get ns winnerIndex in
    let* others := alloc ns in
    modify others (λ a, splice a winnerIndex 1) ;;
    let* shuffled := shuffleArray others in
    let* sh := read shuffled in
    alloc (winner :: sh).

(** ** The handler: channel, cancel button and the elimination rounds *)

(** What the handler shows: the texts it sends to the channel, named by their
    template and carrying the interpolated values, the posted spin, and
    (test script) the console line and the image file of a round. *)
Inductive event :=
| Say_NeedAtLeastTwo (count : nat)
| Say_SpinningFor (count : nat)
| Say_Round (roundNum : nat)
| Say_GettingReady
| Say_Cancelled
| Say_Removed (name : value)
| Post_Spin (names : list value) (winnerIndex : Z)
| Log_Removed (round : nat) (winner : value)
| Wrote_RoundImage (round : nat) (names : list value) (winnerIdx : option Z).

Record world := World {
  memory : mem;
  cancel : nat → bool;       (* the answers of the cancel button, in order *)
  sent : list event
}.

Definition Handler (A : Type) : Type := St world A.

Definition liftJs {A} (m : Js A) : Handler A :=
  λ w, let '(a, μ) := m (memory w) in (a, World μ (cancel w) (sent w)).

Definition send (e : event) : Handler unit :=
  λ w, (tt, World (memory w) (cancel w) (sent w ++ [e])).

(** [waitForCancelButton(spinMsg, author, 7000)] for a posted message: [true]
    when the initiator pressed Cancel within the timeout. *)
Definition waitForCancelButton : Handler bool :=
  λ w, (cancel w 0, World (memory w) (λ n, cancel w (S n)) (sent w)).

(** [createCssSpinAnimation(ordered, 0, channel)] as the handler sees it:
    [null] ([false]) for an empty list, otherwise the spin is posted and the
    message comes back.  What the animation contains is [createSpinningAnimation]
    below. *)
Definition sendSpin (names : loc) (winnerIndex : Z) : Handler bool :=
  let* ns := liftJs (read names) in
  if length ns =? 0 then ret false
  else send (Post_Spin ns winnerIndex) ;; ret true.

(** The locals [winnerIndex] and [winner] of one completed round. *)
Record round_rec := Round { winnerIndex : option Z; winner : value }.

(** How a loop was left; running out of fuel is [None] of [option exit]. *)
Inductive exit :=
| Finished      (* the loop condition became false *)
| Broke         (* [break] on a null draw *)
| Cancelled     (* the handler returned on a cancel *)
| TypeError.    (* a property of [undefined] was read *)

(** The [while (remainingUsers.length > 1)] loop of the [!spin] command.
    The result lists the rounds that reached the [splice].  Left out, as they
    act on nothing the loop reads: the list of messages to clean up, the
    deletion of the spin message and the pause between rounds. *)
Fixpoint spin_loop (fuel : nat) (remainingUsers : loc) (roundNum : nat)
  : Handler (option exit * list round_rec) :=
  match fuel with
  | O => ret (None, [])
  | S fuel' =>
      let* users := liftJs (read remainingUsers) in
      if 1 <? length users then
        match mapM displayName_of users with
        | None => ret (Some TypeError, [])
        | Some ns =>
            let* names := liftJs (alloc ns) in
            let* drawn := liftJs (spinWheel remainingUsers) in
            match drawn with
            | None => ret (Some Broke, [])
            | Some winnerIndex =>
                let* us := liftJs (read remainingUsers) in
                let winner := get us winnerIndex in
                send (Say_Round roundNum) ;;
                send Say_GettingReady ;;
                let* ordered := liftJs (orderedForWinner names winnerIndex) in
                let* spinMsg := sendSpin ordered 0 in
                let* cancelled :=
                  (if spinMsg : bool then waitForCancelButton else ret false) in
                if cancelled : bool then
                  send Say_Cancelled ;; ret (Some Cancelled, [])
                else
                  match displayName_of winner with
                  | None => ret (Some TypeError, [])
                  | Some name =>
                      send (Say_Removed name) ;;
                      liftJs (modify remainingUsers
                                (λ a, splice a winnerIndex 1)) ;;
                      let* rest := spin_loop fuel' remainingUsers (S roundNum) in
                      ret (rest.1, Round (Some winnerIndex) winner :: rest.2)
                  end
            end
        end
      else ret (Some Finished, [])
  end.

(** What a run of the rounds gives back: refused by the size check, or the
    array that was played on, how the loop was left and the rounds played. *)
Inductive outcome :=
| Rejected
| Ran (remaining : loc) (how : option exit) (rounds : list round_rec).

(** Step 2 of [!spin] up to the end of the loop: the size check on the
    members holding the role, the start message, the copy
    [[...onWheelUsers]] and the rounds. *)

Definition spin_step2 (fuel : nat) (onWheelUsers : loc) : Handler outcome :=
  let* users := liftJs (read onWheelUsers) in
  if length users <? 2 then
    send (Say_NeedAtLeastTwo (length users)) ;; ret Rejected
  else
    send (Say_SpinningFor (length users)) ;;
    let* remainingUsers := liftJs (alloc users) in
    let* r := spin_loop fuel remainingUsers 1 in
    ret (Ran remainingUsers r.1 r.2).

(** Test 3 of the test script: the same rounds on a copy of the names, with
    no animation and no cancel button.  A null index would read
    [undefined] and be taken as 0 by [splice]. *)
Fixpoint test3_loop (fuel : nat) (remainingNames : loc) (round : nat)
  : Handler (option exit * list round_rec) :=
  match fuel with
  | O => ret (None, [])
  | S fuel' =>
      let* names := liftJs (read remainingNames) in
      if 1 <? length names then
        let* winnerIdx := liftJs (spinWheel remainingNames) in
        let* ns := liftJs (read remainingNames) in
        let winner := from_option (get ns) undefined winnerIdx in
        send (Log_Removed round winner) ;;
        send (Wrote_RoundImage round ns winnerIdx) ;;
        liftJs (modify remainingNames
                  (λ a, splice a (default 0%Z winnerIdx) 1)) ;;
        let* rest := test3_loop fuel' remainingNames (S round) in
        ret (rest.1, Round winnerIdx winner :: rest.2)
      else ret (Some Finished, [])
  end.

Definition test3 (fuel : nat) (testNamesOnWheel : loc) : Handler outcome :=
  let* names := liftJs (read testNamesOnWheel) in
  let* remainingNames := liftJs (alloc names) in
  let* r := test3_loop fuel remainingNames 1 in
  ret (Ran remainingNames r.1 r.2).

(** A sequence of rounds, each removing from the pool the element at its
    drawn index and nothing else, the others keeping their order. *)
Inductive eliminates : list value → list round_rec → list value → Prop :=
| eliminates_nil pool :
    eliminates pool [] pool
| eliminates_cons pool i w rounds pool' :
    (0 ≤ i < Z.of_nat (length pool))%Z →
    pool !! Z.to_nat i = Some w →
    eliminates (delete (Z.to_nat i) pool) rounds pool' →
    eliminates pool (Round (Some i) w :: rounds) pool'.

(** The statement "the tournament ran to its end on [pool]" about the
    result of a run: the loop condition ended it, after one round less than
    there were participants, each round removing the drawn participant, and
    the participants removed together with the one left are the pool. *)
Definition completes_tournament (pool : list value) (res : outcome * world)
  : Prop :=
  ∃ remaining rounds survivor,
    res.1 = Ran remaining (Some Finished) rounds
    ∧ heap (memory res.2) !! remaining = Some [survivor]
    ∧ length rounds = length pool - 1
    ∧ eliminates pool rounds [survivor]
    ∧ (winner <$> rounds) ++ [survivor] ≡ₚ pool.

(** ** The spin animation (createSpinningAnimation) *)

(** Pointer angle (radians); 0 points to the right. *)
Definition POINTER_ANGLE : R := 0.
(** Fixed number of rotations before landing. *)
Definition FIXED_ROTATIONS : Z := 4.

Definition totalFrames : nat := 60.
Definition slowDownFrames : nat := 20.

Definition easeOutCubic (t : R) : R := (1 - (1 - t) ^ 3)%R.

Definition anglePerSegment (len : nat) : R := ((2 * PI) / INR len)%R.

(** Mid-angle of the winner segment at rotation 0. *)
Definition winnerMidAngle (len : nat) (winnerIndex : Z) : R :=
  (((IZR winnerIndex + 0.5) * anglePerSegment len) - (PI / 2))%R.

(** The landing rotation.  The two module constants are arguments here, so
    that the formula can be stated for any setting of them;
    [createSpinningAnimation] passes [FIXED_ROTATIONS] and [POINTER_ANGLE]. *)
Definition finalRotationRad
    (totalRotations : Z) (pointerAngle : R) (len : nat) (winnerIndex : Z) : R :=
  ((IZR totalRotations * 2 * PI)
   + (pointerAngle - winnerMidAngle len winnerIndex))%R.

Definition progress (frame : nat) : R :=
  (INR frame / (INR totalFrames - 1))%R.

(** The rotation of the wheel in frame [frame]. *)
Definition frame_angle (finalRotation : R) (frame : nat) : R :=
  (easeOutCubic (progress frame) * finalRotation)%R.

(** The delay set before frame [frame] is added. *)
Definition frame_delay (frame : nat) : Z :=
  if frame <? totalFrames - slowDownFrames then 30%Z
  else (50 + (Z.of_nat frame
              - (Z.of_nat totalFrames - Z.of_nat slowDownFrames)) * 15)%Z.

(** What [createWheelImage(names, winnerIndex, size, rotation)] is asked to
    draw; the canvas calls themselves are outside this development. *)
Inductive canvas :=
| NoNames (size : R)
| Wheel (names : list value) (highlight : option Z) (size rotation : R).

Definition createWheelImage
    (names : list value) (winnerIndex : option Z) (size rotation : R) : canvas :=
  if length names =? 0 then NoNames size
  else Wheel names winnerIndex size rotation.

Record gif_frame := GifFrame { image : canvas; delay : Z }.

(** One turn of the frame loop: the last five frames are drawn again with
    the winner highlighted. *)
Definition spin_frame
    (names : list value) (winnerIndex : Z) (finalRotation : R) (frame : nat)
  : gif_frame :=
  let angle := frame_angle finalRotation frame in
  if totalFrames - 5 <=? frame then
    GifFrame (createWheelImage names (Some winnerIndex) 800 angle)
             (frame_delay frame)
  else
    GifFrame (createWheelImage names None 800 angle) (frame_delay frame).

Section Animation.
Variable channel : Type.

(** The message sent: the channel and the frames of the attached GIF. *)
Record spin_message := SpinMessage { to : channel; frames : list gif_frame }.

(** [createSpinningAnimation(names, winnerIndex, channel)]: [null] for an
    empty list, otherwise the posted animation. *)
Definition createSpinningAnimation
    (names : list value) (winnerIndex : Z) (ch : channel)
  : option spin_message :=
  if length names =? 0 then None
  else
    let finalRotation :=
      finalRotationRad FIXED_ROTATIONS POINTER_ANGLE (length names) winnerIndex in
    Some (SpinMessage ch
            (spin_frame names winnerIndex finalRotation <$> seq 0 totalFrames)).

(** [createCssSpinAnimation(names, winnerIndex, channel)] *)
Definition createCssSpinAnimation
    (names : list value) (winnerIndex : Z) (ch : channel)
  : option spin_message :=
  createSpinningAnimation names 0 ch.

End Animation.

Arguments SpinMessage {channel}.
Arguments to {channel}.
Arguments frames {channel}.
Arguments createSpinningAnimation {channel}.
Arguments createCssSpinAnimation {channel}.

(** ** The landing rotation in binary64 *)



(** ** Further code of bot.js *)

(** [[a[i], a[j]] = [a[j], a[i]]] on the elements of [a]. *)
Definition swap (xs : list value) (i : nat) (j : Z) : list value :=
  set (set xs (Z.of_nat i) (get xs j)) j (get xs (Z.of_nat i)).

(** The elements the swap loop of [shuffleArray] leaves, turn by turn, from
    the draws it reads. *)
Fixpoint shuffled (i : nat) (r : nat → draw) (xs : list value) : list value :=
  match i with
  | O => xs
  | S i' =>
      shuffled i' (λ n, r (S n))
        (swap xs i (floor_mul (draw_val (r 0)) (i + 1)))
  end.

(** The wheel of [createWheelImage]: segment [i] of [len] is drawn from
    [startAngle] to [endAngle], its name at [midAngle]. *)
Definition startAngle (len i : nat) : R :=
  (INR i * anglePerSegment len - PI / 2)%R.

Definition endAngle (len i : nat) : R :=
  ((INR i + 1) * anglePerSegment len - PI / 2)%R.

Definition midAngle (len i : nat) : R :=
  ((startAngle len i + endAngle len i) / 2)%R.

(** Colors for the wheel (cycling through these). *)
Definition WHEEL_COLORS : list (list Z) :=
  [ [255; 100; 100]; [100; 255; 100]; [100; 100; 255]; [255; 255; 100];
    [255; 100; 255]; [100; 255; 255]; [255; 200; 100]; [200; 100; 255] ]%Z.

(** The fill colour of segment [i]: its colour of the cycle, each component
    raised by 50 and capped at 255 when [i] is the winner index. *)
Definition segment_color (i : nat) (winnerIndex : option Z) : list Z :=
  let color := default [] (WHEEL_COLORS !! (i mod length WHEEL_COLORS)) in
  if decide (winnerIndex = Some (Z.of_nat i))
  then (λ c, Z.min 255 (c + 50)) <$> color
  else color.

(** The rotation a frame was drawn with (0 for the "No names" canvas, which
    is not rotated). *)
Definition rotation_of (c : canvas) : R :=
  match c with
  | NoNames _ => 0%R
  | Wheel _ _ _ rotation => rotation
  end.

(** Step 1 of [!spin], from the size check on the members off the wheel to
    the announcement of the one brought back.  The result names the text
    the step ends with; the "Found N users" notice and the role update that
    follows the announcement are left out. *)
Inductive step1 :=
| Skipped (count : nat)      (* "Only N users 'Off the wheel' ... Skipping" *)
| NoWinner                   (* a null draw: nothing is announced *)
| Step1Cancelled             (* the handler returned on a cancel *)
| Step1TypeError             (* a property of [undefined] was read *)
| BackOnWheel (winnerIndex : Z) (winner : value).

Definition spin_step1 (offWheelUsers : loc) : Handler step1 :=
  let* users := liftJs (read offWheelUsers) in
  if 6 <=? length users then
    match mapM displayName_of users with
    | None => ret Step1TypeError
    | Some ns =>
        let* offWheelNames := liftJs (alloc ns) in
        let* drawn := liftJs (spinWheel offWheelUsers) in
        match drawn with
        | None => ret NoWinner
        | Some winnerIndex =>
            let* us := liftJs (read offWheelUsers) in
            let winner := get us winnerIndex in
            send Say_GettingReady ;;
            let* ordered :=
              liftJs (orderedForWinner offWheelNames winnerIndex) in
            let* spinMsg := sendSpin ordered 0 in
            let* cancelled :=
              (if spinMsg : bool then waitForCancelButton else ret false) in
            if cancelled : bool then
              send Say_Cancelled ;; ret Step1Cancelled
            else
              match displayName_of winner with
              | None => ret Step1TypeError
              | Some _ => ret (BackOnWheel winnerIndex winner)
              end
        end
    end
  else ret (Skipped (length users)).

(** The end of step 2, after the loop: the final winner is announced when
    exactly one member is left, otherwise the error "No final winner
    determined" is sent. *)
Inductive announcement :=
| FinalWinner (finalWinner : value)
| NoFinalWinner.

Definition announce (remainingUsers : loc) : Js announcement :=
  let* users := read remainingUsers in
  if length users =? 1 then ret (FinalWinner (get users 0))
  else ret NoFinalWinner.

(** Step 2 of [!spin] with its announcement; [None] when the handler
    returned before it (size check, cancel), threw, or ran out of fuel. *)
Definition spin_step2_announce (fuel : nat) (onWheelUsers : loc)
  : Handler (option announcement) :=
  let* res := spin_step2 fuel onWheelUsers in
  match res with
  | Ran remaining (Some Finished) _ | Ran remaining (Some Broke) _ =>
      let* a := liftJs (announce remaining) in ret (Some a)
  | _ => ret None
  end.

(** A press on a button of the spin message. *)
Record interaction := Interaction { customId : string; user_id : string }.

(** What the collector answers to a press. *)
Inductive reply :=
| OnlyIssuer (to_user : string)   (* "Only the command issuer can cancel" *)
| SpinCancelledUpdate.            (* the message is updated, buttons removed *)

(** The collector of [waitForCancelButton(spinMessage, initiator, timeout)]
    over the presses it hands to the 'collect' listener, in order, until it
    is stopped or times out.  A press on another button is ignored, a press
    by someone else is answered, the initiator's press resolves [true] and
    updates the message.  The collector is stopped only after that update
    has been awaited, so presses may still follow the initiator's; they are
    handled like the others.  When the collector ends unresolved the promise
    resolves [false]. *)
Fixpoint collectCancel (initiator : string) (presses : list interaction)
  : bool * list reply :=
  match presses with
  | [] => (false, [])
  | i :: rest =>
      let '(cancelled, replies) := collectCancel initiator rest in
      if negb (String.eqb (customId i) "spin_cancel") then
        (cancelled, replies)
      else if negb (String.eqb (user_id i) initiator) then
        (cancelled, OnlyIssuer (user_id i) :: replies)
      else (true, SpinCancelledUpdate :: replies)
  end.

(** [waitForCancelButton]: without a message it resolves [false] at once. *)
Definition cancelButton (spinMessage : bool) (initiator : string)
    (presses : list interaction) : bool * list reply :=
  if spinMessage then collectCancel initiator presses else (false, []).

(** The member cache: per guild the time of the last fetch; the clock read
    by [Date.now()]; the guilds fetched from Discord, in order. *)
Record cache_world := CacheWorld {
  memberCache : gmap string Z;
  clock : nat → Z;
  fetched : list string
}.

(** [await guild.members.fetch(); memberCache.set(guild.id, { ts: Date.now() })] *)
Definition fetch_and_stamp (guild_id : string) (s : cache_world) : cache_world :=
  CacheWorld (<[guild_id := clock s 0]> (memberCache s))
             (λ n, clock s (S n))
             (fetched s ++ [guild_id]).

(** [fetchMembersIfNeeded(guild, ttl)], calls running one after another:
    the clock is read in the test only when there is an entry. *)
Definition fetchMembersIfNeeded (guild_id : string) (ttl : Z)
  : St cache_world unit :=
  λ s,
    match memberCache s !! guild_id with
    | None => (tt, fetch_and_stamp guild_id s)
    | Some ts =>
        let now := clock s 0 in
        let s1 := CacheWorld (memberCache s) (λ n, clock s (S n)) (fetched s) in
        if (ttl <? now - ts)%Z then (tt, fetch_and_stamp guild_id s1)
        else (tt, s1)
    end.

(** The names announced as removed, in the order of the log. *)
Definition removed_announced (evs : list event) : list value :=
  omap (λ e, match e with Say_Removed name => Some name | _ => None end) evs.

(** The font fitting of [createWheelImage]:
    [while (fontSize > 8 && measureText(displayName).width > maxWidth) fontSize--],
    the measurement being [too_wide] at each font size. *)
Fixpoint fit_font (too_wide : nat → bool) (fontSize : nat) : nat :=
  match fontSize with
  | O => O
  | S smaller =>
      if (8 <? fontSize) && too_wide fontSize
      then fit_font too_wide smaller
      else fontSize
  end.

(** A role of the guild and a member with the ids of the roles held. *)
Record role := Role { role_id : string; role_name : string }.
Record guild_member := GuildMember { who : member; roles_held : list string }.
Record guild := Guild { guild_roles : list role; guild_members : list guild_member }.

(** [getRole(guild, roleName)]: the first role whose name equals [roleName]
    when both are lower-cased ([toLowerCase] is the language's). *)
Definition getRole (toLowerCase : string → string) (g : guild)
    (roleName : string) : option role :=
  find (λ r, String.eqb (toLowerCase (role_name r)) (toLowerCase roleName))
       (guild_roles g).

(** [getUsersWithRole(guild, roleName)] *)
Definition getUsersWithRole (toLowerCase : string → string) (g : guild)
    (roleName : string) : list guild_member :=
  match getRole toLowerCase g roleName with
  | None => []
  | Some r =>
      List.filter (λ m, bool_decide (role_id r ∈ roles_held m))
                  (guild_members g)
  end.

(** ** Sample inputs *)

Definition half : draw := Draw (1 # 2) eq_refl.
Definition seven_tenths : draw := Draw (7 # 10) eq_refl.

(** A memory with one array, the letters A to D, and draws alternating
    between 1/2 and 7/10. *)
Definition mem_abcd : mem :=
  Mem {[ 0 := [str "A"; str "B"; str "C"; str "D"] ]}
      (λ n, if Nat.even n then half else seven_tenths).

Definition alice : member := Member "1001" "Alice".
Definition bob : member := Member "1002" "Bob".
Definition carol : member := Member "1003" "Carol".

(** Three members on the wheel; nobody presses Cancel. *)
Definition world_three : world :=
  World (Mem {[ 0 := [obj alice; obj bob; obj carol] ]}
             (λ n, if Nat.even n then half else seven_tenths))
        (λ _, false) [].

(** Two members on the wheel; the initiator cancels the first spin. *)
Definition world_cancel : world :=
  World (Mem {[ 0 := [obj alice; obj bob] ]} (λ _, half)) (λ _, true) [].

(** Three members on the wheel; the initiator cancels the second spin. *)
Definition world_cancel_second : world :=
  World (Mem {[ 0 := [obj alice; obj bob; obj carol] ]}
             (λ n, if Nat.even n then half else seven_tenths))
        (λ n, n =? 1) [].

(** One member on the wheel. *)
Definition world_one : world :=
  World (Mem {[ 0 := [obj alice] ]} (λ _, half)) (λ _, false) [].

(** The names A to D, as the test script holds them. *)
Definition world_abcd : world := World mem_abcd (λ _, false) [].



(** * Properties *)

(** ** The draw *)

Lemma in_unit_spec (q : Q) : in_unit q = true ↔ (0 <= q)%Q ∧ (q < 1)%Q.
Proof.
  unfold in_unit. rewrite andb_true_iff, negb_true_iff.
  rewrite Qle_bool_iff, <- not_true_iff_false, Qle_bool_iff.
  split; intros [H0 H1]; split; auto.
  - by apply Qnot_le_lt.
  - by apply Qlt_not_le.
Qed.

(** [Math.floor(r * n)] is an index below [n] whenever [0 <= r < 1]. *)
Lemma floor_mul_range (r : Q) (n : nat) :
  (0 <= r)%Q → (r < 1)%Q → 1 ≤ n →
  (0 ≤ floor_mul r n < Z.of_nat n)%Z.
Proof.
  intros H0 H1 Hn. unfold floor_mul.
  assert (Hpos : (0 < inject_Z (Z.of_nat n))%Q).
  { change 0%Q with (inject_Z 0). rewrite <- Zlt_Qlt. lia. }
  split.
  - change 0%Z with (Qfloor (inject_Z 0)) at 1. apply Qfloor_resp_le.
    change (inject_Z 0) with 0%Q. apply Qmult_le_0_compat; [done|].
    by apply Qlt_le_weak.
  - rewrite Zlt_Qlt.
    eapply Qle_lt_trans; [apply Qfloor_le|].
    rewrite <- (Qmult_1_l (inject_Z (Z.of_nat n))) at 2.
    by apply Qmult_lt_compat_r.
Qed.

Lemma draw_index_range (d : draw) (n : nat) :
  1 ≤ n → (0 ≤ floor_mul (draw_val d) n < Z.of_nat n)%Z.
Proof.
  intros Hn. destruct (proj1 (in_unit_spec _) (draw_range d)) as [H0 H1].
  by apply floor_mul_range.
Qed.

(** ** State passing, step by step *)

Lemma bind_eq {S A B} (m : St S A) (k : A → St S B) s a s' :
  m s = (a, s') → bind m k s = k a s'.
Proof. unfold bind. by intros ->. Qed.

Lemma read_eq (l : loc) (a : list value) (s : mem) :
  heap s !! l = Some a → read l s = (a, s).
Proof. unfold read. by intros ->. Qed.

Lemma alloc_fresh (a : list value) (s : mem) :
  (alloc a s).1 ∉ dom (heap s).
Proof. apply is_fresh. Qed.

Lemma alloc_fresh_lookup (a : list value) (s : mem) :
  heap s !! (alloc a s).1 = None.
Proof. apply not_elem_of_dom, alloc_fresh. Qed.

Lemma mem_eta (s : mem) : Mem (heap s) (rng s) = s.
Proof. by destruct s. Qed.

Lemma spinWheel_empty (users : loc) (s : mem) :
  heap s !! users = Some [] → spinWheel users s = (None, s).
Proof.
  intros H. unfold spinWheel. by rewrite (bind_eq _ _ _ _ _ (read_eq _ _ _ H)).
Qed.

Lemma spinWheel_draw (users : loc) (a : list value)
    (h : gmap loc (list value)) (r : nat → draw) :
  h !! users = Some a → 1 ≤ length a →
  spinWheel users (Mem h r)
  = (Some (floor_mul (draw_val (r 0)) (length a)), Mem h (λ n, r (S n))).
Proof.
  intros H Hlen. unfold spinWheel.
  rewrite (bind_eq _ _ _ _ _ (read_eq _ _ (Mem h r) H)).
  destruct (Nat.eqb_spec (length a) 0) as [E|_]; [lia|]. done.
Qed.

(** ** Arrays *)

Lemma get_lookup (a : list value) (i : Z) (x : value) :
  (0 ≤ i)%Z → a !! Z.to_nat i = Some x → get a i = x.
Proof. intros Hi H. unfold get. rewrite decide_True by done. by rewrite H. Qed.

Lemma get_in_range (a : list value) (i : Z) :
  (0 ≤ i < Z.of_nat (length a))%Z →
  ∃ x, a !! Z.to_nat i = Some x ∧ get a i = x.
Proof.
  intros Hi. destruct (lookup_lt_is_Some_2 a (Z.to_nat i)) as [x Hx]; [lia|].
  exists x. split; [done|]. apply get_lookup; [lia|done].
Qed.

Lemma set_in_range (a : list value) (i : Z) (v : value) :
  (0 ≤ i < Z.of_nat (length a))%Z → set a i v = <[Z.to_nat i := v]> a.
Proof.
  intros Hi. unfold set.
  rewrite decide_False by lia. rewrite decide_True by lia. done.
Qed.

(** Removing one element at a valid index is positional deletion. *)
Lemma splice_one (a : list value) (i : Z) :
  (0 ≤ i < Z.of_nat (length a))%Z → splice a i 1 = delete (Z.to_nat i) a.
Proof.
  intros Hi. unfold splice. rewrite decide_False by lia.
  rewrite delete_take_drop. repeat f_equal; lia.
Qed.

(** [splice] never adds elements: what is left is a sublist. *)
Lemma splice_length_le (a : list value) (start count : Z) :
  length (splice a start count) ≤ length a.
Proof.
  unfold splice. rewrite length_app, length_take, length_drop.
  destruct (decide (start < 0)%Z); lia.
Qed.

Lemma insert_head_perm (l : list value) (j : nat) (x y : value) :
  l !! j = Some y → y :: <[j := x]> l ≡ₚ x :: l.
Proof.
  revert j. induction l as [|z l IH]; intros [|j] H; simplify_eq/=.
  - apply perm_swap.
  - rewrite (perm_swap z y). rewrite (IH _ H). apply perm_swap.
Qed.

(** Exchanging the elements at two valid positions permutes the list. *)
Lemma swap_perm (l : list value) (i j : nat) (x y : value) :
  l !! i = Some x → l !! j = Some y →
  <[j := x]> (<[i := y]> l) ≡ₚ l.
Proof.
  revert i j. induction l as [|z l IH]; intros [|i] [|j] Hi Hj; simplify_eq/=.
  - done.
  - by apply insert_head_perm.
  - by apply insert_head_perm.
  - f_equiv. by apply IH.
Qed.

Lemma swap_set_perm (xs : list value) (i : nat) (j : Z) :
  i < length xs → (0 ≤ j ≤ Z.of_nat i)%Z →
  set (set xs (Z.of_nat i) (get xs j)) j (get xs (Z.of_nat i)) ≡ₚ xs.
Proof.
  intros Hi Hj.
  destruct (get_in_range xs j) as (y & Hy & ->); [lia|].
  destruct (get_in_range xs (Z.of_nat i)) as (x & Hx & ->); [lia|].
  rewrite (set_in_range xs) by lia.
  rewrite set_in_range by (rewrite length_insert; lia).
  apply swap_perm; [done|]. done.
Qed.

(** ** shuffleArray and orderedForWinner *)

(** The swap loop rewrites the one array it is given, into a permutation of
    what it held, and touches no other array. *)
Lemma shuffle_loop_spec (a : loc) (i : nat) (s : mem) (xs : list value) :
  heap s !! a = Some xs → i ≤ length xs - 1 →
  ∃ xs' rng',
    shuffle_loop a i s = (tt, Mem (<[a := xs']> (heap s)) rng') ∧ xs' ≡ₚ xs.
Proof.
  revert s xs. induction i as [|i IH]; intros s xs Ha Hi.
  - exists xs, (rng s). split; [|done].
    cbn. rewrite insert_id by done. by rewrite mem_eta.
  - cbn [shuffle_loop].
    set (j := floor_mul (draw_val (rng s 0)) (S i + 1)).
    set (ys := set (set xs (Z.of_nat (S i)) (get xs j)) j
                   (get xs (Z.of_nat (S i)))).
    assert (Hj : (0 ≤ j ≤ Z.of_nat (S i))%Z).
    { pose proof (draw_index_range (rng s 0) (S i + 1)) as Hr.
      fold j in Hr. lia. }
    assert (Hys : ys ≡ₚ xs) by (apply swap_set_perm; [lia|done]).
    destruct (IH (Mem (<[a := ys]> (heap s)) (λ n, rng s (S n))) ys)
      as (xs' & rng' & Hrun & Hperm).
    { cbn. apply lookup_insert_eq. }
    { rewrite (Permutation_length Hys). lia. }
    exists xs', rng'. split; [|by rewrite Hperm].
    unfold bind at 1. cbn [random heap rng].
    unfold bind at 1. unfold read at 1. cbn [heap rng]. rewrite Ha. cbn [from_option Datatypes.id].
    unfold bind at 1. unfold modify at 1. cbn [heap rng]. rewrite Ha. cbn [from_option Datatypes.id].
    fold j. fold ys. rewrite Hrun. cbn [heap]. by rewrite insert_insert_eq.
Qed.

Lemma shuffleArray_spec (arr : loc) (s : mem) :
  let xs := default [] (heap s !! arr) in
  let a := fresh (dom (heap s)) in
  ∃ xs' rng',
    shuffleArray arr s = (a, Mem (<[a := xs']> (heap s)) rng') ∧ xs' ≡ₚ xs.
Proof.
  intros xs a. unfold shuffleArray.
  unfold bind at 1. unfold read at 1. fold xs.
  unfold bind at 1. unfold alloc at 1. cbn [heap rng]. fold a.
  destruct (shuffle_loop_spec a (length xs - 1)
              (Mem (<[a := xs]> (heap s)) (rng s)) xs)
    as (xs' & rng' & Hrun & Hperm); [apply lookup_insert_eq|done|].
  exists xs', rng'. split; [|done].
  unfold bind. rewrite Hrun. cbn. by rewrite insert_insert_eq.
Qed.

(** The heap after [orderedForWinner] on a non-empty list: the old heap and
    three new arrays, [others] (spliced), the shuffled copy and the result. *)
Lemma orderedForWinner_spec (names : loc) (winnerIndex : Z) (s : mem) :
  let ns := default [] (heap s !! names) in
  ns ≠ [] →
  ∃ others shuffled out sh rng',
    heap s !! others = None ∧ heap s !! shuffled = None ∧ heap s !! out = None
    ∧ others ≠ shuffled ∧ others ≠ out ∧ shuffled ≠ out
    ∧ sh ≡ₚ splice ns winnerIndex 1
    ∧ orderedForWinner names winnerIndex s
      = (out,
         Mem (<[out := get ns winnerIndex :: sh]>
                (<[shuffled := sh]>
                   (<[others := splice ns winnerIndex 1]> (heap s)))) rng').
Proof.
  intros ns Hne. unfold orderedForWinner.
  unfold bind at 1. unfold read at 1. fold ns.
  destruct (Nat.eqb_spec (length ns) 0) as [E|_].
  { by destruct ns. }
  unfold bind at 1. unfold alloc at 1.
  set (others := fresh (dom (heap s))).
  assert (Ho : heap s !! others = None) by apply not_elem_of_dom, is_fresh.
  unfold bind at 1. unfold modify at 1. cbn [heap rng].
  rewrite lookup_insert_eq. cbn [from_option Datatypes.id]. rewrite insert_insert_eq.
  set (h1 := <[others := splice ns winnerIndex 1]> (heap s)).
  destruct (shuffleArray_spec others (Mem h1 (rng s)))
    as (sh & rng' & Hrun & Hperm).
  cbn [heap] in Hrun, Hperm. unfold h1 in Hperm at 1.
  rewrite lookup_insert_eq in Hperm. cbn [from_option Datatypes.id] in Hperm.
  set (shuffled := fresh (dom h1)) in *.
  assert (Hs : h1 !! shuffled = None) by apply not_elem_of_dom, is_fresh.
  unfold bind at 1. rewrite Hrun.
  unfold bind at 1. unfold read at 1. cbn [heap]. rewrite lookup_insert_eq.
  cbn [from_option Datatypes.id]. unfold alloc. cbn [heap rng].
  set (h2 := <[shuffled := sh]> h1).
  set (out := fresh (dom h2)).
  assert (Hout : h2 !! out = None) by apply not_elem_of_dom, is_fresh.
  assert (others ≠ shuffled).
  { intros E. rewrite <- E in Hs. unfold h1 in Hs.
    by rewrite lookup_insert_eq in Hs. }
  assert (shuffled ≠ out).
  { intros E. rewrite <- E in Hout. unfold h2 in Hout.
    by rewrite lookup_insert_eq in Hout. }
  assert (others ≠ out).
  { intros E. rewrite <- E in Hout. unfold h2, h1 in Hout.
    rewrite lookup_insert_ne, lookup_insert_eq in Hout; done. }
  exists others, shuffled, out, sh, rng'.
  repeat split; try done.
  - unfold h1 in Hs. by rewrite lookup_insert_ne in Hs.
  - unfold h2, h1 in Hout. by rewrite !lookup_insert_ne in Hout.
Qed.

Lemma orderedForWinner_keeps (names : loc) (winnerIndex : Z) (s : mem)
    (l : loc) (a : list value) :
  heap s !! l = Some a →
  heap (orderedForWinner names winnerIndex s).2 !! l = Some a.
Proof.
  intros Hl.
  destruct (decide (default [] (heap s !! names) = [])) as [E|Hne].
  - unfold orderedForWinner, bind, read. rewrite E. cbn.
    rewrite lookup_insert_ne; [done|].
    intros <-. pose proof (alloc_fresh_lookup [] s) as Hf. cbn in Hf. congruence.
  - destruct (orderedForWinner_spec names winnerIndex s Hne)
      as (o & sh & out & xs & rng' & Ho & Hs & Hout & _ & _ & _ & _ & ->).
    cbn. rewrite !lookup_insert_ne by congruence. done.
Qed.

(** C8. [orderedForWinner(names, winnerIndex)] leaves its input array as it
    was, for every list and every integer [winnerIndex] (in range or not):
    after the call [names] holds the same elements in the same order, and so
    does every other array that existed before the call.  The function
    splices and swaps only the copies it makes. *)
Theorem orderedForWinner_input_unchanged
    (names : loc) (winnerIndex : Z) (ns : list value) (s : mem) :
  heap s !! names = Some ns →
  heap (orderedForWinner names winnerIndex s).2 !! names = Some ns
  ∧ ∀ l a, heap s !! l = Some a →
           heap (orderedForWinner names winnerIndex s).2 !! l = Some a.
Proof.
  intros H. split; [by apply orderedForWinner_keeps|].
  intros l a. apply orderedForWinner_keeps.
Qed.

(** C3. For a list [ns] of N >= 1 names and an index in [0, N),
    [orderedForWinner] returns an array of length N whose first element is
    [ns[winnerIndex]] and whose elements are a permutation of [ns]; the
    positions 1 .. N-1 hold the other N-1 names, permuted. *)
Theorem orderedForWinner_winner_first
    (names : loc) (winnerIndex : Z) (ns : list value) (s : mem) :
  heap s !! names = Some ns →
  1 ≤ length ns →
  (0 ≤ winnerIndex < Z.of_nat (length ns))%Z →
  ∃ res w,
    heap (orderedForWinner names winnerIndex s).2
      !! (orderedForWinner names winnerIndex s).1 = Some res
    ∧ length res = length ns
    ∧ ns !! Z.to_nat winnerIndex = Some w
    ∧ res !! 0 = Some w
    ∧ res ≡ₚ ns
    ∧ drop 1 res ≡ₚ delete (Z.to_nat winnerIndex) ns.
Proof.
  intros H Hlen Hi.
  destruct (orderedForWinner_spec names winnerIndex s)
    as (o & sh & out & xs & rng' & _ & _ & _ & _ & _ & _ & Hperm & ->).
  { rewrite H. cbn. destruct ns; [cbn in Hlen; lia | done]. }
  rewrite H in *. cbn [from_option Datatypes.id] in *. cbn [fst snd heap].
  destruct (get_in_range ns winnerIndex Hi) as (w & Hw & ->).
  rewrite splice_one in Hperm by done.
  exists (w :: xs), w. rewrite lookup_insert_eq.
  repeat split; try done.
  - cbn. rewrite (Permutation_length Hperm), length_delete by eauto.
    lia.
  - rewrite Hperm. symmetry. by apply delete_Permutation.
Qed.

Lemma orderedForWinner_input_unchanged_witness :
  heap (orderedForWinner 0 2 mem_abcd).2 !! 0
  = Some [str "A"; str "B"; str "C"; str "D"].
Proof.
  apply (proj1 (orderedForWinner_input_unchanged 0 2
                  [str "A"; str "B"; str "C"; str "D"] mem_abcd eq_refl)).
Defined.

Lemma orderedForWinner_winner_first_witness :
  ∃ res w,
    heap (orderedForWinner 0 2 mem_abcd).2
      !! (orderedForWinner 0 2 mem_abcd).1 = Some res
    ∧ length res = 4
    ∧ [str "A"; str "B"; str "C"; str "D"] !! 2 = Some w
    ∧ res !! 0 = Some w
    ∧ res ≡ₚ [str "A"; str "B"; str "C"; str "D"]
    ∧ drop 1 res ≡ₚ [str "A"; str "B"; str "D"].
Proof.
  apply (orderedForWinner_winner_first 0 2
           [str "A"; str "B"; str "C"; str "D"] mem_abcd).
  - reflexivity.
  - simpl. lia.
  - simpl. lia.
Defined.

Example orderedForWinner_abcd :
  heap (orderedForWinner 0 2 mem_abcd).2 !! (orderedForWinner 0 2 mem_abcd).1
  = Some [str "C"; str "A"; str "D"; str "B"].
Proof. vm_compute. reflexivity. Qed.

(** C5. On an empty pool [spinWheel] fails at once: it hands [null] back to
    its caller without drawing from the random source and without touching
    any array.  ([null] is how this code reports the unusable input; its
    callers test for it.) *)
Theorem spinWheel_empty_pool (users : loc) (a : list value) (s : mem) :
  heap s !! users = Some a → length a = 0 →
  spinWheel users s = (None, s).
Proof.
  intros H Hlen. apply nil_length_inv in Hlen as ->. by apply spinWheel_empty.
Qed.

Lemma spinWheel_empty_pool_witness :
  spinWheel 0 (Mem {[ 0 := [] ]} (λ _, half))
  = (None, Mem {[ 0 := [] ]} (λ _, half)).
Proof.
  apply (spinWheel_empty_pool 0 [] (Mem {[ 0 := [] ]} (λ _, half)));
    reflexivity.
Defined.



(** ** The elimination rounds *)

(** Running the first command of a handler whose world is spelled out. *)
Ltac run_read H :=
  unfold bind at 1; unfold liftJs at 1, read at 1;
  cbn [memory heap rng cancel sent];
  rewrite H; cbn [from_option Datatypes.id].
Ltac run_send :=
  unfold bind at 1; unfold send at 1; cbn [memory cancel sent].
Ltac run_alloc :=
  unfold bind at 1; unfold liftJs at 1, alloc at 1;
  cbn [memory heap rng cancel sent].
Ltac run_modify H :=
  unfold bind at 1; unfold liftJs at 1, modify at 1;
  cbn [memory heap rng cancel sent];
  rewrite H; cbn [from_option Datatypes.id].
Ltac run_spinWheel H :=
  unfold bind at 1; unfold liftJs at 1; cbn [memory];
  rewrite (spinWheel_draw _ _ _ _ H) by (rewrite ?length_fmap; lia);
  cbn [heap rng cancel sent].

Lemma mapM_displayName (ms : list member) :
  mapM displayName_of (obj <$> ms) = Some ((λ m, str (displayName m)) <$> ms).
Proof.
  induction ms as [|m ms IH]; [done|].
  cbn [fmap list_fmap]. cbn. cbn in IH. by rewrite IH.
Qed.

Lemma eliminates_length (pool : list value) rounds final :
  eliminates pool rounds final →
  length rounds + length final = length pool.
Proof.
  induction 1 as [|pool i w rounds final Hi Hw _ IH]; [done|].
  cbn. rewrite length_delete in IH by eauto. lia.
Qed.

Lemma eliminates_perm (pool : list value) rounds final :
  eliminates pool rounds final →
  (winner <$> rounds) ++ final ≡ₚ pool.
Proof.
  induction 1 as [|pool i w rounds final Hi Hw _ IH]; [done|].
  cbn. rewrite IH. symmetry. by apply delete_Permutation.
Qed.

Lemma spin_loop_round (fuel : nat) (l : loc) (roundNum : nat)
    (ms : list member) (h : gmap loc (list value)) r c ev :
  h !! l = Some (obj <$> ms) → 2 ≤ length ms →
  let wi := floor_mul (draw_val (r 0)) (length ms) in
  ∃ h1 r1 ev1 m,
    ms !! Z.to_nat wi = Some m
    ∧ (0 ≤ wi < Z.of_nat (length ms))%Z
    ∧ (∀ l' a, h !! l' = Some a → h1 !! l' = Some a)
    ∧ spin_loop (S fuel) l roundNum (World (Mem h r) c ev)
      = if c 0 then
          ((Some Cancelled, []),
           World (Mem h1 r1) (λ n, c (S n)) (ev1 ++ [Say_Cancelled]))
        else
          bind (spin_loop fuel l (S roundNum))
               (λ rest, ret (rest.1, Round (Some wi) (obj m) :: rest.2))
               (World (Mem (<[l := obj <$> delete (Z.to_nat wi) ms]> h1) r1)
                      (λ n, c (S n))
                      (ev1 ++ [Say_Removed (str (displayName m))])).
Proof.
  intros Hl Hlen wi.
  assert (Hwi : (0 ≤ wi < Z.of_nat (length ms))%Z).
  { apply draw_index_range. lia. }
  destruct (lookup_lt_is_Some_2 ms (Z.to_nat wi)) as [m Hm]; [lia|].
  assert (Hwinner : get (obj <$> ms) wi = obj m).
  { apply get_lookup; [lia|]. by rewrite list_lookup_fmap, Hm. }
  cbn [spin_loop].
  run_read Hl. rewrite length_fmap.
  destruct (Nat.ltb_spec 1 (length ms)) as [_|?]; [|lia].
  rewrite mapM_displayName.
  set (ns := (λ m, str (displayName m)) <$> ms).
  run_alloc.
  set (names := fresh (dom h)).
  assert (Hnames : h !! names = None) by apply not_elem_of_dom, is_fresh.
  assert (Hnl : names ≠ l) by (intros ->; congruence).
  set (h_a := <[names := ns]> h).
  assert (Hl_a : h_a !! l = Some (obj <$> ms))
    by (unfold h_a; rewrite lookup_insert_ne; done).
  run_spinWheel Hl_a. rewrite length_fmap. fold wi.
  run_read Hl_a. run_send. run_send.
  unfold bind at 1. unfold liftJs at 1. cbn [memory cancel sent].
  destruct (orderedForWinner_spec names wi (Mem h_a (λ n, r (S n))))
    as (o & sh & out & xs & r1 & Ho & Hsh & Hout & _ & _ & _ & _ & Heq).
  { cbn [heap]. unfold h_a. rewrite lookup_insert_eq. cbn.
    unfold ns. destruct ms; [cbn in Hlen; lia | done]. }
  rewrite Heq. clear Heq. cbn [heap] in *.
  set (h1 := <[out := _]> _).
  assert (Hframe : ∀ l' a, h !! l' = Some a → h1 !! l' = Some a).
  { intros l' a Hl'. unfold h1.
    assert (Hl'a : h_a !! l' = Some a).
    { unfold h_a. rewrite lookup_insert_ne; [done|]. intros <-. congruence. }
    rewrite !lookup_insert_ne by congruence. done. }
  unfold bind at 1. unfold sendSpin at 1.
  unfold bind at 1. unfold liftJs at 1, read at 1.
  cbn [memory heap cancel sent].
  unfold h1 at 1. rewrite lookup_insert_eq.
  cbn [from_option Datatypes.id length Nat.eqb].
  run_send. unfold ret at 1.
  unfold bind at 1. unfold waitForCancelButton at 1. cbn [memory cancel sent].
  exists h1, r1, (((ev ++ [Say_Round roundNum]) ++ [Say_GettingReady])
                    ++ [Post_Spin (default [] (h1 !! out)) 0]), m.
  split; [done|]. split; [done|]. split; [done|].
  destruct (c 0); [done|].
  rewrite Hwinner. cbn [displayName_of].
  run_send. run_modify (Hframe _ _ Hl).
  rewrite splice_one by (rewrite length_fmap; lia).
  by rewrite list_fmap_delete.
Qed.

Lemma spin_loop_runs (fuel : nat) :
  ∀ (ms : list member) (l : loc) (roundNum : nat) (w : world),
    heap (memory w) !! l = Some (obj <$> ms) →
    1 ≤ length ms → length ms ≤ fuel →
    ∃ how rounds final w',
      spin_loop fuel l roundNum w = ((Some how, rounds), w')
      ∧ heap (memory w') !! l = Some final
      ∧ eliminates (obj <$> ms) rounds final
      ∧ (∀ n, n < length rounds → cancel w n = false)
      ∧ (how = Finished ∧ length final = 1
         ∨ how = Cancelled ∧ cancel w (length rounds) = true
           ∧ 2 ≤ length final)
      ∧ (∀ l' a, l' ≠ l → heap (memory w) !! l' = Some a →
                 heap (memory w') !! l' = Some a).
Proof.
  induction fuel as [|fuel IH]; intros ms l roundNum w Hl H1 Hfuel; [lia|].
  destruct (decide (length ms = 1)) as [E1|Hne].
  - exists Finished, [], (obj <$> ms), w.
    repeat split; try done.
    + cbn [spin_loop]. unfold bind, liftJs, read. rewrite Hl.
      cbn [from_option Datatypes.id]. rewrite length_fmap, E1. cbn.
      by destruct w.
    + constructor.
    + intros n Hn. cbn in Hn. lia.
    + left. by rewrite length_fmap.
  - destruct w as [[h r] c ev]. cbn [memory heap cancel] in *.
    destruct (spin_loop_round fuel l roundNum ms h r c ev Hl)
      as (h1 & r1 & ev1 & m & Hm & Hwi & Hframe & Heq); [lia|].
    rewrite Heq. clear Heq.
    set (wi := floor_mul (draw_val (r 0)) (length ms)) in *.
    destruct (c 0) eqn:Hc.
    + exists Cancelled, [], (obj <$> ms), (World (Mem h1 r1) (λ n, c (S n)) (ev1 ++ [Say_Cancelled])).
      cbn [memory heap cancel length].
      split; [done|]. split; [by apply Hframe|]. split; [constructor|].
      split; [intros n Hn; lia|]. split.
      * right. split; [done|]. split; [done|]. rewrite length_fmap. lia.
      * intros l' a _. apply Hframe.
    + set (w1 := World _ _ _).
      destruct (IH (delete (Z.to_nat wi) ms) l (S roundNum) w1)
        as (how & rounds & final & w' & Hrun & Hfinal & Helim & Hnc & Hhow & Hfr).
      { cbn. apply lookup_insert_eq. }
      { rewrite length_delete by eauto. lia. }
      { rewrite length_delete by eauto. lia. }
      exists how, (Round (Some wi) (obj m) :: rounds), final, w'.
      unfold bind. rewrite Hrun. cbn [fst snd ret].
      split_and!; try done.
      * econstructor; [by rewrite length_fmap| by rewrite list_lookup_fmap, Hm |].
        by rewrite <- list_fmap_delete.
      * intros [|n] Hn; [done|]. cbn in Hn. apply (Hnc n). lia.
      * intros l' a Hne' Hl'. apply Hfr; [done|]. cbn.
        rewrite lookup_insert_ne by done. by apply Hframe.
Qed.

Lemma test3_loop_round (fuel : nat) (l : loc) (round : nat)
    (xs : list value) (h : gmap loc (list value)) r c ev :
  h !! l = Some xs → 2 ≤ length xs →
  let wi := floor_mul (draw_val (r 0)) (length xs) in
  ∃ x,
    xs !! Z.to_nat wi = Some x
    ∧ (0 ≤ wi < Z.of_nat (length xs))%Z
    ∧ test3_loop (S fuel) l round (World (Mem h r) c ev)
      = bind (test3_loop fuel l (S round))
             (λ rest, ret (rest.1, Round (Some wi) x :: rest.2))
             (World (Mem (<[l := delete (Z.to_nat wi) xs]> h) (λ n, r (S n))) c
                    ((ev ++ [Log_Removed round x])
                       ++ [Wrote_RoundImage round xs (Some wi)])).
Proof.
  intros Hl Hlen wi.
  assert (Hwi : (0 ≤ wi < Z.of_nat (length xs))%Z).
  { apply draw_index_range. lia. }
  destruct (get_in_range xs wi Hwi) as (x & Hx & Hget).
  exists x. split; [done|]. split; [done|].
  cbn [test3_loop].
  run_read Hl.
  destruct (Nat.ltb_spec 1 (length xs)) as [_|?]; [|lia].
  run_spinWheel Hl. fold wi.
  run_read Hl. rewrite Hget.
  run_send. run_send. run_modify Hl.
  by rewrite splice_one.
Qed.

Lemma test3_loop_runs (fuel : nat) :
  ∀ (xs : list value) (l : loc) (round : nat) (w : world),
    heap (memory w) !! l = Some xs →
    1 ≤ length xs → length xs ≤ fuel →
    ∃ rounds survivor w',
      test3_loop fuel l round w = ((Some Finished, rounds), w')
      ∧ heap (memory w') !! l = Some [survivor]
      ∧ eliminates xs rounds [survivor]
      ∧ (∀ l' a, l' ≠ l → heap (memory w) !! l' = Some a →
                 heap (memory w') !! l' = Some a).
Proof.
  induction fuel as [|fuel IH]; intros xs l round w Hl H1 Hfuel; [lia|].
  destruct (decide (length xs = 1)) as [E1|Hne].
  - destruct xs as [|x [|??]]; try done.
    exists [], x, w. split_and!; try done.
    + cbn [test3_loop]. unfold bind, liftJs, read. rewrite Hl. cbn.
      by destruct w.
    + constructor.
  - destruct w as [[h r] c ev]. cbn [memory heap cancel] in *.
    destruct (test3_loop_round fuel l round xs h r c ev Hl)
      as (x & Hx & Hwi & Heq); [lia|].
    rewrite Heq. clear Heq.
    set (wi := floor_mul (draw_val (r 0)) (length xs)) in *.
    set (w1 := World _ _ _).
    destruct (IH (delete (Z.to_nat wi) xs) l (S round) w1)
      as (rounds & survivor & w' & Hrun & Hfinal & Helim & Hfr).
    { cbn. apply lookup_insert_eq. }
    { rewrite length_delete by eauto. lia. }
    { rewrite length_delete by eauto. lia. }
    exists (Round (Some wi) x :: rounds), survivor, w'.
    unfold bind. rewrite Hrun. cbn [fst snd ret].
    split_and!; try done.
    + by econstructor.
    + intros l' a Hne' Hl'. apply Hfr; [done|]. cbn.
      by rewrite lookup_insert_ne.
Qed.

Lemma test3_runs (fuel : nat) (testNames : loc) (xs : list value) (w : world) :
  heap (memory w) !! testNames = Some xs →
  2 ≤ length xs → length xs ≤ fuel →
  completes_tournament xs (test3 fuel testNames w).
Proof.
  intros Hl H2 Hfuel. destruct w as [[h r] c ev]. cbn [memory heap] in Hl.
  set (l := fresh (dom h)).
  set (w1 := World (Mem (<[l := xs]> h) r) c ev).
  destruct (test3_loop_runs fuel xs l 1 w1)
    as (rounds & survivor & w' & Hrun & Hfinal & Helim & _);
    [apply lookup_insert_eq | lia | done |].
  assert (Heq : test3 fuel testNames (World (Mem h r) c ev)
                = (Ran l (Some Finished) rounds, w')).
  { unfold test3. run_read Hl. run_alloc. fold l. fold w1.
    unfold bind, ret. by rewrite Hrun. }
  unfold completes_tournament. rewrite Heq. cbn [fst snd].
  exists l, rounds, survivor. split_and!; try done.
  - apply eliminates_length in Helim. cbn in Helim. lia.
  - by apply eliminates_perm.
Qed.

Lemma spin_step2_runs (fuel : nat) (onWheelUsers : loc) (ms : list member)
    (w : world) :
  heap (memory w) !! onWheelUsers = Some (obj <$> ms) →
  2 ≤ length ms → length ms ≤ fuel →
  ∃ remaining how rounds final,
    (spin_step2 fuel onWheelUsers w).1 = Ran remaining (Some how) rounds
    ∧ heap (memory (spin_step2 fuel onWheelUsers w).2) !! remaining = Some final
    ∧ heap (memory (spin_step2 fuel onWheelUsers w).2) !! onWheelUsers
      = Some (obj <$> ms)
    ∧ eliminates (obj <$> ms) rounds final
    ∧ (∀ n, n < length rounds → cancel w n = false)
    ∧ (how = Finished ∧ length final = 1
       ∨ how = Cancelled ∧ cancel w (length rounds) = true
         ∧ 2 ≤ length final).
Proof.
  intros Hl H2 Hfuel. destruct w as [[h r] c ev]. cbn [memory heap] in Hl.
  set (l := fresh (dom h)).
  set (w1 := World (Mem (<[l := obj <$> ms]> h) r) c
                   (ev ++ [Say_SpinningFor (length ms)])).
  assert (Hfresh : h !! l = None) by apply not_elem_of_dom, is_fresh.
  destruct (spin_loop_runs fuel ms l 1 w1)
    as (how & rounds & final & w' & Hrun & Hfinal & Helim & Hnc & Hhow & Hfr);
    [apply lookup_insert_eq | lia | done |].
  assert (Heq : spin_step2 fuel onWheelUsers (World (Mem h r) c ev)
                = (Ran l (Some how) rounds, w')).
  { unfold spin_step2. run_read Hl. rewrite length_fmap.
    destruct (Nat.ltb_spec (length ms) 2) as [?|_]; [lia|].
    run_send. run_alloc. fold l. fold w1.
    unfold bind, ret. by rewrite Hrun. }
  rewrite Heq. cbn [fst snd].
  exists l, how, rounds, final. split_and!; try done.
  apply Hfr; [intros ->; congruence|]. cbn.
  rewrite lookup_insert_ne; [done|]. intros <-. congruence.
Qed.

(** X26. The test script's loop (Test 3) has no cancel button: on N >= 2
    names it always plays N-1 rounds, each removing the drawn name, and ends
    with one name. *)
Theorem test3_rounds (fuel : nat) (testNames : loc) (xs : list value)
    (w : world) :
  heap (memory w) !! testNames = Some xs →
  2 ≤ length xs → length xs ≤ fuel →
  completes_tournament xs (test3 fuel testNames w).
Proof. apply test3_runs. Qed.

Example test3_abcd :
  (test3 4 0 world_abcd).1
  = Ran 1 (Some Finished)
        [Round (Some 2%Z) (str "C"); Round (Some 2%Z) (str "D");
         Round (Some 1%Z) (str "B")].
Proof. vm_compute. reflexivity. Qed.

(** C1, as the code has it.  For a pool of N >= 2 members the [!spin] loop
    plays rounds until one member is left or the initiator cancels a spin.
    Each completed round removes exactly the member at the drawn index, the
    others keeping their order, so each round's pool is one smaller than the
    one before; the members removed together with those still in the pool are
    the original pool, each exactly once.  No completed round was cancelled.
    The loop ends in one of two ways: after exactly N-1 rounds, with a
    single survivor; or on a cancelled spin, after fewer than N-1 rounds.
    When none of the first N-1 spins is cancelled the loop plays exactly N-1
    rounds.  When spin k+1 (k < N-1) is the first one cancelled, the handler
    returns there, after exactly k rounds. *)
Theorem elimination_rounds
    (fuel : nat) (onWheelUsers : loc) (ms : list member) (w : world) :
  heap (memory w) !! onWheelUsers = Some (obj <$> ms) →
  2 ≤ length ms → length ms ≤ fuel →
  ((∀ n, n < length ms - 1 → cancel w n = false) →
   completes_tournament (obj <$> ms) (spin_step2 fuel onWheelUsers w))
  ∧ (∃ remaining how rounds final,
      (spin_step2 fuel onWheelUsers w).1 = Ran remaining (Some how) rounds
      ∧ heap (memory (spin_step2 fuel onWheelUsers w).2) !! remaining
        = Some final
      ∧ eliminates (obj <$> ms) rounds final
      ∧ length rounds + length final = length ms
      ∧ (winner <$> rounds) ++ final ≡ₚ obj <$> ms
      ∧ (∀ n, n < length rounds → cancel w n = false)
      ∧ (how = Finished ∧ length rounds = length ms - 1
         ∨ how = Cancelled ∧ length rounds < length ms - 1
           ∧ cancel w (length rounds) = true))
  ∧ (∀ k, k < length ms - 1 → cancel w k = true →
       (∀ n, n < k → cancel w n = false) →
       ∃ remaining rounds final,
         (spin_step2 fuel onWheelUsers w).1
         = Ran remaining (Some Cancelled) rounds
         ∧ length rounds = k
         ∧ heap (memory (spin_step2 fuel onWheelUsers w).2) !! remaining
           = Some final
         ∧ length final = length ms - k).
Proof.
  intros Hl H2 Hfuel.
  destruct (spin_step2_runs fuel onWheelUsers ms w Hl H2 Hfuel)
    as (l & how & rounds & final & Hres & Hfinal & _ & Helim & Hnc & Hhow).
  pose proof (eliminates_length _ _ _ Helim) as Hlen.
  rewrite length_fmap in Hlen.
  pose proof (eliminates_perm _ _ _ Helim) as Hperm.
  split; [|split].
  - intros Hno. destruct Hhow as [[-> H1]|(_ & Hc & Hfin)].
    + destruct final as [|survivor [|??]]; try done.
      exists l, rounds, survivor. rewrite length_fmap.
      split_and!; try done. cbn in Hlen. lia.
    + rewrite Hno in Hc by lia. done.
  - exists l, how, rounds, final.
    split; [done|]. split; [done|]. split; [done|]. split; [done|].
    split; [done|]. split; [done|].
    destruct Hhow as [[-> H1]|(-> & Hc & Hfin)]; [left|right].
    + split; [done|lia].
    + split; [done|]. split; [lia|done].
  - intros k Hk Hck Hmin.
    destruct Hhow as [[-> H1]|(-> & Hc & Hfin)].
    + rewrite Hnc in Hck by lia. done.
    + assert (length rounds = k) as Hrk.
      { destruct (Nat.lt_trichotomy (length rounds) k) as [Hlt|[E|Hgt]].
        - rewrite Hmin in Hc by done. done.
        - done.
        - rewrite Hnc in Hck by done. done. }
      exists l, rounds, final. split; [done|]. split; [done|].
      split; [done|]. lia.
Qed.

Lemma elimination_rounds_witness :
  completes_tournament [obj alice; obj bob; obj carol]
    (spin_step2 3 0 world_three).
Proof.
  apply (proj1 (elimination_rounds 3 0 [alice; bob; carol] world_three
                  eq_refl (le_S _ _ (le_n 2)) (le_n 3))).
  intros n _. reflexivity.
Defined.

Example spin_three :
  (spin_step2 3 0 world_three).1
  = Ran 1 (Some Finished)
        [Round (Some 1%Z) (obj bob); Round (Some 1%Z) (obj carol)]
  ∧ heap (memory (spin_step2 3 0 world_three).2) !! 1 = Some [obj alice].
Proof. vm_compute. split; reflexivity. Qed.

Example spin_cancelled_at_second_spin :
  (spin_step2 3 0 world_cancel_second).1
  = Ran 1 (Some Cancelled) [Round (Some 1%Z) (obj bob)]
  ∧ heap (memory (spin_step2 3 0 world_cancel_second).2) !! 1
    = Some [obj alice; obj carol].
Proof. vm_compute. split; reflexivity. Qed.

(** The claim C1 as first stated fails when the initiator cancels: with two
    members on the wheel and Cancel pressed on the first spin, the handler
    returns with no round played and both members still in the pool. *)
Lemma cancelled_spin_plays_no_round :
  (spin_step2 2 0 world_cancel).1 = Ran 1 (Some Cancelled) []
  ∧ heap (memory (spin_step2 2 0 world_cancel).2) !! 1
    = Some [obj alice; obj bob]
  ∧ ¬ completes_tournament [obj alice; obj bob] (spin_step2 2 0 world_cancel).
Proof.
  split_and!; [by vm_compute | by vm_compute |].
  intros (l & rounds & survivor & Hres & _).
  vm_compute in Hres. discriminate Hres.
Qed.

(** C6. With fewer than two members holding the role, step 2 of [!spin]
    fails before the tournament: it sends the "Need at least 2 users" error
    and returns; no round is played, nothing is drawn, no array changes. *)
Theorem spin_step2_needs_two
    (fuel : nat) (onWheelUsers : loc) (users : list value) (w : world) :
  heap (memory w) !! onWheelUsers = Some users →
  length users < 2 →
  spin_step2 fuel onWheelUsers w
  = (Rejected,
     World (memory w) (cancel w)
           (sent w ++ [Say_NeedAtLeastTwo (length users)])).
Proof.
  intros Hl Hlen. unfold spin_step2.
  unfold bind at 1. unfold liftJs at 1, read at 1. rewrite Hl.
  cbn [from_option Datatypes.id].
  destruct (Nat.ltb_spec (length users) 2) as [_|?]; [|lia].
  destruct w as [μ c ev]. reflexivity.
Qed.

Lemma spin_step2_needs_two_witness :
  spin_step2 5 0 world_one
  = (Rejected,
     World (memory world_one) (cancel world_one) [Say_NeedAtLeastTwo 1]).
Proof.
  apply (spin_step2_needs_two 5 0 [obj alice] world_one).
  - reflexivity.
  - simpl. lia.
Defined.

(** ** The landing rotation and the frame angles *)

Section Angles.
Local Open Scope R_scope.

(** C2. For S >= 1 segments, a slot in [0, S) and R >= 0 whole rotations, the
    final rotation R*2*pi + (P - mid), added to the mid-angle
    mid = (slot + 0.5)*(2*pi/S) - pi/2 of the winner segment, is the
    pointer angle P plus a whole number (R) of turns: the rotated midpoint
    is congruent to P modulo 2*pi. *)
Theorem winner_midpoint_lands_on_pointer
    (segments : nat) (slot rotations : Z) (pointer : R) :
  (1 ≤ segments)%nat →
  (0 ≤ slot < Z.of_nat segments)%Z →
  (0 ≤ rotations)%Z →
  ∃ k : Z,
    winnerMidAngle segments slot
    + finalRotationRad rotations pointer segments slot
    = pointer + IZR k * (2 * PI).
Proof.
  intros _ _ _. exists rotations. unfold finalRotationRad. ring.
Qed.

Lemma winner_midpoint_lands_on_pointer_witness :
  ∃ k : Z,
    winnerMidAngle 8 0 + finalRotationRad FIXED_ROTATIONS POINTER_ANGLE 8 0
    = POINTER_ANGLE + IZR k * (2 * PI).
Proof.
  apply (winner_midpoint_lands_on_pointer 8 0 FIXED_ROTATIONS POINTER_ANGLE).
  - lia.
  - simpl. lia.
  - unfold FIXED_ROTATIONS. lia.
Defined.



Lemma INR_totalFrames : INR totalFrames - 1 = 59.
Proof. unfold totalFrames. simpl. lra. Qed.

Lemma progress_mono (i j : nat) : (i ≤ j)%nat → progress i <= progress j.
Proof.
  intros Hij. unfold progress. rewrite INR_totalFrames.
  apply le_INR in Hij. lra.
Qed.

Lemma easeOutCubic_mono (t u : R) : t <= u → easeOutCubic t <= easeOutCubic u.
Proof.
  intros Htu. unfold easeOutCubic.
  set (a := 1 - t). set (b := 1 - u).
  assert (Hq : 0 <= a ^ 2 + a * b + b ^ 2).
  { replace (a ^ 2 + a * b + b ^ 2) with ((a + b / 2) ^ 2 + 3 / 4 * b ^ 2)
      by field.
    pose proof (pow2_ge_0 (a + b / 2)). pose proof (pow2_ge_0 b). lra. }
  assert (Hd : a ^ 3 - b ^ 3 = (a - b) * (a ^ 2 + a * b + b ^ 2)) by ring.
  assert (0 <= (a - b) * (a ^ 2 + a * b + b ^ 2)).
  { apply Rmult_le_pos; [unfold a, b; lra | done]. }
  lra.
Qed.

(** C4. With 60 frames, progress frame/59 and the easing 1 - (1 - t)^3, the
    angle of frame 0 is 0, the angle of frame 59 is exactly the final
    rotation, and the angle never decreases from one frame to a later one
    when the final rotation is >= 0. *)
Theorem frame_angle_curve (finalRotation : R) :
  totalFrames = 60%nat
  ∧ frame_angle finalRotation 0 = 0
  ∧ frame_angle finalRotation (totalFrames - 1) = finalRotation
  ∧ (0 <= finalRotation →
     ∀ i j : nat, (i ≤ j)%nat →
       frame_angle finalRotation i <= frame_angle finalRotation j).
Proof.
  split_and!.
  - reflexivity.
  - unfold frame_angle, easeOutCubic, progress. rewrite INR_totalFrames.
    simpl. lra.
  - unfold frame_angle, easeOutCubic, progress. rewrite INR_totalFrames.
    replace (INR (totalFrames - 1)) with 59
      by (unfold totalFrames; simpl; lra).
    lra.
  - intros Hpos i j Hij. unfold frame_angle.
    apply Rmult_le_compat_r; [done|].
    by apply easeOutCubic_mono, progress_mono.
Qed.

Lemma frame_angle_curve_witness :
  frame_angle 1 10 <= frame_angle 1 11.
Proof.
  apply (proj2 (proj2 (proj2 (frame_angle_curve 1)))).
  - lra.
  - lia.
Defined.

End Angles.

(** ** createCssSpinAnimation *)

Lemma frame_angle_last (finalRotation : R) :
  frame_angle finalRotation (totalFrames - 1) = finalRotation.
Proof.
  unfold frame_angle, easeOutCubic, progress. rewrite INR_totalFrames.
  replace (INR (totalFrames - 1)) with 59%R by (unfold totalFrames; simpl; lra).
  lra.
Qed.

Lemma createSpinningAnimation_frame {channel : Type}
    (names : list value) (winnerIndex : Z) (ch : channel)
    (msg : spin_message channel) (k : nat) (frame : gif_frame) :
  createSpinningAnimation names winnerIndex ch = Some msg →
  frames msg !! k = Some frame →
  to msg = ch
  ∧ k < totalFrames
  ∧ frame
    = GifFrame
        (Wheel names
           (if totalFrames - 5 <=? k then Some winnerIndex else None) 800
           (frame_angle
              (finalRotationRad FIXED_ROTATIONS POINTER_ANGLE
                 (length names) winnerIndex) k))
        (frame_delay k).
Proof.
  unfold createSpinningAnimation.
  destruct (Nat.eqb_spec (length names) 0) as [|Hne]; [done|].
  intros Heq. apply (inj Some) in Heq. subst msg. cbn [frames to].
  rewrite list_lookup_fmap.
  intros Hk. apply fmap_Some in Hk as (k' & Hk' & ->).
  apply lookup_seq in Hk' as [-> Hlt]. cbn [Nat.add].
  split; [done|]. split; [done|].
  unfold spin_frame, createWheelImage.
  destruct (Nat.eqb_spec (length names) 0) as [|_]; [done|].
  by destruct (totalFrames - 5 <=? k).
Qed.

(** C10. [createCssSpinAnimation(names, winnerIndex, channel)] does not look
    at its [winnerIndex]: for every list, index and channel it is
    [createSpinningAnimation(names, 0, channel)].  The animation it posts
    highlights presentation slot 0 in its last five frames and in no other,
    and its last frame is rotated by the landing rotation of slot 0. *)
Theorem createCssSpinAnimation_lands_on_slot_0 {channel : Type}
    (names : list value) (winnerIndex : Z) (ch : channel) :
  createCssSpinAnimation names winnerIndex ch
  = createSpinningAnimation names 0 ch
  ∧ ∀ msg : spin_message channel,
      createCssSpinAnimation names winnerIndex ch = Some msg →
      (∀ k frame, frames msg !! k = Some frame →
         ∃ angle,
           image frame
           = Wheel names (if totalFrames - 5 <=? k then Some 0%Z else None)
                   800 angle)
      ∧ frames msg !! (totalFrames - 1)
        = Some (GifFrame
                  (Wheel names (Some 0%Z) 800
                     (finalRotationRad FIXED_ROTATIONS POINTER_ANGLE
                        (length names) 0))
                  (frame_delay (totalFrames - 1))).
Proof.
  split; [reflexivity|].
  unfold createCssSpinAnimation. intros msg Hmsg. split.
  - intros k frame Hk.
    destruct (createSpinningAnimation_frame _ _ _ _ _ _ Hmsg Hk)
      as (_ & _ & ->).
    by eexists.
  - destruct (lookup_lt_is_Some_2 (frames msg) (totalFrames - 1))
      as [frame Hk].
    { revert Hmsg. unfold createSpinningAnimation.
      destruct (length names =? 0); [done|].
      intros Heq. apply (inj Some) in Heq. subst msg. cbn [frames]. rewrite length_fmap, length_seq. unfold totalFrames. lia. }
    rewrite Hk.
    destruct (createSpinningAnimation_frame _ _ _ _ _ _ Hmsg Hk)
      as (_ & _ & ->).
    by rewrite frame_angle_last.
Qed.

Example createCssSpinAnimation_any_index :
  createCssSpinAnimation [str "C"; str "A"; str "D"; str "B"] 3 tt
  = createCssSpinAnimation [str "C"; str "A"; str "D"; str "B"] 0 tt.
Proof. reflexivity. Qed.

(** * Further properties *)

(** ** shuffleArray, draw by draw *)

Lemma shuffle_loop_eq (a : loc) (i : nat) (h : gmap loc (list value))
    (r : nat → draw) (xs : list value) :
  h !! a = Some xs →
  shuffle_loop a i (Mem h r)
  = (tt, Mem (<[a := shuffled i r xs]> h) (λ n, r (i + n))).
Proof.
  revert h r xs. induction i as [|i IH]; intros h r xs Ha.
  - cbn. by rewrite insert_id.
  - cbn [shuffle_loop shuffled].
    unfold bind at 1. cbn [random heap rng].
    unfold bind at 1. unfold read at 1. cbn [heap rng]. rewrite Ha.
    cbn [from_option Datatypes.id].
    unfold bind at 1. unfold modify at 1. cbn [heap rng]. rewrite Ha.
    cbn [from_option Datatypes.id]. fold (swap xs (S i)
      (floor_mul (draw_val (r 0)) (S i + 1))).
    rewrite (IH _ _ _ (lookup_insert_eq _ _ _)).
    by rewrite insert_insert_eq.
Qed.

Lemma shuffleArray_eq (arr : loc) (h : gmap loc (list value))
    (r : nat → draw) (xs : list value) :
  h !! arr = Some xs →
  shuffleArray arr (Mem h r)
  = (fresh (dom h),
     Mem (<[fresh (dom h) := shuffled (length xs - 1) r xs]> h)
         (λ n, r (length xs - 1 + n))).
Proof.
  intros Ha. unfold shuffleArray.
  unfold bind at 1. unfold read at 1. cbn [heap]. rewrite Ha.
  cbn [from_option Datatypes.id].
  unfold bind at 1. unfold alloc at 1. cbn [heap rng].
  unfold bind at 1.
  rewrite (shuffle_loop_eq _ _ _ _ xs) by apply lookup_insert_eq.
  unfold ret. by rewrite insert_insert_eq.
Qed.

(** X1. [shuffleArray(arr)] returns a new array holding a permutation of the
    elements of [arr] (so of the same length); [arr] itself and every other
    array that existed before are left as they were. *)
Theorem shuffleArray_permutes (arr : loc) (xs : list value) (s : mem) :
  heap s !! arr = Some xs →
  ∃ out,
    heap (shuffleArray arr s).2 !! (shuffleArray arr s).1 = Some out
    ∧ out ≡ₚ xs
    ∧ length out = length xs
    ∧ heap s !! (shuffleArray arr s).1 = None
    ∧ ∀ l ys, heap s !! l = Some ys →
              heap (shuffleArray arr s).2 !! l = Some ys.
Proof.
  intros Ha.
  destruct (shuffleArray_spec arr s) as (out & rng' & -> & Hperm).
  rewrite Ha in Hperm. cbn [from_option Datatypes.id] in Hperm. cbn [fst snd heap].
  assert (Hfresh : heap s !! fresh (dom (heap s)) = None)
    by apply not_elem_of_dom, is_fresh.
  exists out. split_and!; try done.
  - apply lookup_insert_eq.
  - by apply Permutation_length.
  - intros l ys Hl. rewrite lookup_insert_ne; [done|]. intros <-. congruence.
Qed.

Lemma shuffleArray_permutes_witness :
  ∃ out,
    heap (shuffleArray 0 mem_abcd).2 !! (shuffleArray 0 mem_abcd).1 = Some out
    ∧ out ≡ₚ [str "A"; str "B"; str "C"; str "D"]
    ∧ length out = 4
    ∧ heap mem_abcd !! (shuffleArray 0 mem_abcd).1 = None
    ∧ ∀ l ys, heap mem_abcd !! l = Some ys →
              heap (shuffleArray 0 mem_abcd).2 !! l = Some ys.
Proof.
  apply (shuffleArray_permutes 0 [str "A"; str "B"; str "C"; str "D"] mem_abcd).
  reflexivity.
Defined.

(** X2. [shuffleArray] on an array of n elements reads exactly n - 1 draws of
    the random source (none for an empty or one-element array, whose copy is
    returned as it is). *)
Theorem shuffleArray_draws (arr : loc) (xs : list value) (s : mem) :
  heap s !! arr = Some xs →
  (∀ n, rng (shuffleArray arr s).2 n = rng s (length xs - 1 + n))
  ∧ (length xs ≤ 1 →
     heap (shuffleArray arr s).2 !! (shuffleArray arr s).1 = Some xs).
Proof.
  intros Ha. destruct s as [h r]. cbn [heap rng] in *.
  rewrite (shuffleArray_eq _ _ _ _ Ha). cbn [fst snd heap rng].
  split; [done|]. intros Hlen. rewrite lookup_insert_eq.
  by replace (length xs - 1) with 0 by lia.
Qed.

Lemma shuffleArray_draws_witness :
  rng (shuffleArray 0 mem_abcd).2 0 = rng mem_abcd (3 + 0).
Proof.
  apply (proj1 (shuffleArray_draws 0 [str "A"; str "B"; str "C"; str "D"]
                  mem_abcd eq_refl) 0).
Defined.

(** ** orderedForWinner at the edges *)

Lemma splice_past_end (a : list value) (i : Z) :
  (Z.of_nat (length a) ≤ i)%Z → splice a i 1 = a.
Proof.
  intros Hi. unfold splice. rewrite decide_False by lia.
  rewrite Z.min_r by lia.
  rewrite take_ge by lia. rewrite drop_ge by lia. by rewrite app_nil_r.
Qed.

Lemma splice_from_end (a : list value) (i : Z) :
  (- Z.of_nat (length a) ≤ i < 0)%Z →
  splice a i 1 = delete (Z.to_nat (Z.of_nat (length a) + i)) a.
Proof.
  intros Hi. unfold splice. rewrite decide_True by lia.
  rewrite delete_take_drop. repeat f_equal; lia.
Qed.

Lemma get_outside (a : list value) (i : Z) :
  (i < 0 ∨ Z.of_nat (length a) ≤ i)%Z → get a i = undefined.
Proof.
  intros Hi. unfold get. destruct (decide (0 ≤ i)%Z); [|done].
  rewrite lookup_ge_None_2 by lia. done.
Qed.

(** X3. [orderedForWinner] on an empty list returns a new empty array; it
    reads no draw and changes no array. *)
Theorem orderedForWinner_empty (names : loc) (winnerIndex : Z) (s : mem) :
  heap s !! names = Some [] →
  heap (orderedForWinner names winnerIndex s).2
    !! (orderedForWinner names winnerIndex s).1 = Some []
  ∧ heap s !! (orderedForWinner names winnerIndex s).1 = None
  ∧ rng (orderedForWinner names winnerIndex s).2 = rng s
  ∧ ∀ l ys, heap s !! l = Some ys →
            heap (orderedForWinner names winnerIndex s).2 !! l = Some ys.
Proof.
  intros Hn. split_and!.
  - unfold orderedForWinner, bind, read. rewrite Hn. cbn.
    apply lookup_insert_eq.
  - unfold orderedForWinner, bind, read. rewrite Hn. cbn.
    apply not_elem_of_dom, is_fresh.
  - unfold orderedForWinner, bind, read. rewrite Hn. done.
  - intros l ys. apply orderedForWinner_keeps.
Qed.

Lemma orderedForWinner_empty_witness :
  heap (orderedForWinner 0 0 (Mem {[ 0 := [] ]} (λ _, half))).2
    !! (orderedForWinner 0 0 (Mem {[ 0 := [] ]} (λ _, half))).1 = Some [].
Proof.
  refine (proj1 (orderedForWinner_empty 0 0
                   (Mem {[ 0 := [] ]} (λ _, half)) _)).
  reflexivity.
Defined.

(** X4. With an index at or past the end of a non-empty list,
    [orderedForWinner] takes nothing out: the result has N + 1 elements,
    [undefined] first and then all N names, permuted. *)
Theorem orderedForWinner_index_past_end
    (names : loc) (winnerIndex : Z) (ns : list value) (s : mem) :
  heap s !! names = Some ns →
  1 ≤ length ns →
  (Z.of_nat (length ns) ≤ winnerIndex)%Z →
  ∃ sh,
    heap (orderedForWinner names winnerIndex s).2
      !! (orderedForWinner names winnerIndex s).1 = Some (undefined :: sh)
    ∧ sh ≡ₚ ns
    ∧ length (undefined :: sh) = length ns + 1.
Proof.
  intros H Hlen Hi.
  destruct (orderedForWinner_spec names winnerIndex s)
    as (o & sh & out & xs & rng' & _ & _ & _ & _ & _ & _ & Hperm & ->).
  { rewrite H. cbn. destruct ns; [cbn in Hlen; lia | done]. }
  rewrite H in *. cbn [from_option Datatypes.id] in *. cbn [fst snd heap].
  rewrite get_outside by lia. rewrite splice_past_end in Hperm by done.
  exists xs. rewrite lookup_insert_eq. split_and!; try done.
  cbn. rewrite (Permutation_length Hperm). lia.
Qed.

Lemma orderedForWinner_index_past_end_witness :
  ∃ sh,
    heap (orderedForWinner 0 4 mem_abcd).2
      !! (orderedForWinner 0 4 mem_abcd).1 = Some (undefined :: sh)
    ∧ sh ≡ₚ [str "A"; str "B"; str "C"; str "D"]
    ∧ length (undefined :: sh) = 4 + 1.
Proof.
  apply (orderedForWinner_index_past_end 0 4
           [str "A"; str "B"; str "C"; str "D"] mem_abcd).
  - reflexivity.
  - simpl. lia.
  - simpl. lia.
Defined.

(** X5. With a negative index -k (1 <= k <= N), [orderedForWinner] reads
    [undefined] as the winner while [splice] counts from the end and takes
    out the name at position N - k: the result has N elements, [undefined]
    first and then the other N - 1 names, permuted; the name taken out is
    not in it as the winner. *)
Theorem orderedForWinner_negative_index
    (names : loc) (winnerIndex : Z) (ns : list value) (s : mem) :
  heap s !! names = Some ns →
  (- Z.of_nat (length ns) ≤ winnerIndex < 0)%Z →
  ∃ sh,
    heap (orderedForWinner names winnerIndex s).2
      !! (orderedForWinner names winnerIndex s).1 = Some (undefined :: sh)
    ∧ sh ≡ₚ delete (Z.to_nat (Z.of_nat (length ns) + winnerIndex)) ns
    ∧ length (undefined :: sh) = length ns.
Proof.
  intros H Hi.
  destruct (orderedForWinner_spec names winnerIndex s)
    as (o & sh & out & xs & rng' & _ & _ & _ & _ & _ & _ & Hperm & ->).
  { rewrite H. cbn. destruct ns; [cbn in Hi; lia | done]. }
  rewrite H in *. cbn [from_option Datatypes.id] in *. cbn [fst snd heap].
  rewrite get_outside by lia. rewrite splice_from_end in Hperm by done.
  exists xs. rewrite lookup_insert_eq. split_and!; try done.
  cbn. rewrite (Permutation_length Hperm).
  rewrite length_delete; [lia|]. apply lookup_lt_is_Some_2. lia.
Qed.

Lemma orderedForWinner_negative_index_witness :
  ∃ sh,
    heap (orderedForWinner 0 (-1) mem_abcd).2
      !! (orderedForWinner 0 (-1) mem_abcd).1 = Some (undefined :: sh)
    ∧ sh ≡ₚ [str "A"; str "B"; str "C"]
    ∧ length (undefined :: sh) = 4.
Proof.
  apply (orderedForWinner_negative_index 0 (-1)
           [str "A"; str "B"; str "C"; str "D"] mem_abcd).
  - reflexivity.
  - simpl. lia.
Defined.

(** ** Every order can come out of the shuffle *)

Lemma index_draw (j m : nat) :
  j < m → ∃ d : draw, floor_mul (draw_val d) m = Z.of_nat j.
Proof.
  intros Hjm.
  assert (Hm : Z.pos (Pos.of_nat m) = Z.of_nat m).
  { rewrite <- (Nat2Pos.id m) at 2 by lia. by rewrite positive_nat_Z. }
  assert (Hq : in_unit (Z.of_nat j # Pos.of_nat m) = true).
  { apply in_unit_spec. unfold Qle, Qlt. cbn [Qnum Qden]. rewrite Hm. lia. }
  exists (Draw _ Hq). unfold floor_mul. cbn [draw_val].
  unfold Qmult, inject_Z, Qfloor. cbn [Qnum Qden].
  rewrite Pos.mul_1_r, Hm. apply Z.div_mul. lia.
Qed.

Lemma swap_inserts (xs : list value) (i j : nat) (x t : value) :
  xs !! i = Some x → xs !! j = Some t → j ≤ i →
  swap xs i (Z.of_nat j) = <[j := x]> (<[i := t]> xs).
Proof.
  intros Hi Hj Hji. unfold swap.
  rewrite (get_lookup xs (Z.of_nat j) t); [|lia|by rewrite Nat2Z.id].
  rewrite (get_lookup xs (Z.of_nat i) x); [|lia|by rewrite Nat2Z.id].
  apply lookup_lt_Some in Hi as Hi'. apply lookup_lt_Some in Hj as Hj'.
  rewrite (set_in_range xs) by lia.
  rewrite set_in_range by (rewrite length_insert; lia).
  by rewrite !Nat2Z.id.
Qed.

Lemma shuffled_reaches (i : nat) :
  ∀ xs target : list value,
    length target = length xs → i < length xs →
    take (S i) target ≡ₚ take (S i) xs →
    drop (S i) target = drop (S i) xs →
    ∃ r : nat → draw, shuffled i r xs = target.
Proof.
  induction i as [|i IH]; intros xs target Hlen Hi Htake Hdrop.
  - exists (λ _, half). cbn.
    rewrite <- (take_drop 1 xs), <- (take_drop 1 target), Hdrop. f_equal.
    destruct xs as [|x xs]; [cbn in Hi; lia|].
    destruct target as [|t target]; [done|]. cbn in *.
    apply Permutation_singleton_r in Htake. by simplify_eq.
  - destruct (lookup_lt_is_Some_2 target (S i)) as [t Ht]; [lia|].
    destruct (lookup_lt_is_Some_2 xs (S i)) as [x Hx]; [lia|].
    assert (Hin : t ∈ take (S (S i)) xs).
    { rewrite <- Htake. apply list_elem_of_lookup. exists (S i).
      rewrite lookup_take_lt by lia. done. }
    apply list_elem_of_lookup in Hin as [j Hj].
    apply lookup_lt_Some in Hj as Hjlt. rewrite length_take in Hjlt.
    rewrite lookup_take_lt in Hj by lia.
    destruct (index_draw j (S i + 1)) as [d Hd]; [lia|].
    set (xs' := <[j := x]> (<[S i := t]> xs)).
    assert (Hxs' : xs' !! S i = Some t).
    { unfold xs'. destruct (decide (j = S i)) as [->|Hne].
      - rewrite list_lookup_insert_eq by (rewrite length_insert; lia).
        congruence.
      - rewrite list_lookup_insert_ne by done.
        apply list_lookup_insert_eq. lia. }
    destruct (IH xs' target) as [r' Hr'].
    + unfold xs'. rewrite !length_insert. done.
    + unfold xs'. rewrite !length_insert. lia.
    + assert (Hfull : take (S (S i)) xs' ≡ₚ take (S (S i)) target).
      { rewrite Htake. unfold xs'.
        rewrite !take_insert_lt by lia.
        apply swap_perm; rewrite lookup_take_lt by lia; done. }
      rewrite (take_S_r _ _ _ Hxs'), (take_S_r _ _ _ Ht) in Hfull.
      symmetry. by apply Permutation_app_inv_r in Hfull.
    + rewrite (drop_S _ _ _ Hxs'), (drop_S _ _ _ Ht). f_equal.
      rewrite Hdrop. unfold xs'. by rewrite !drop_insert_lt by lia.
    + exists (λ n, match n with O => d | S n => r' n end).
      cbn [shuffled]. rewrite Hd.
      rewrite (swap_inserts xs (S i) j x t) by (try done; lia).
      exact Hr'.
Qed.

(** X6. Every order can come out of [shuffleArray]: for each permutation of
    the elements of [arr] there are draws of the random source with which
    [shuffleArray(arr)] returns exactly that permutation. *)
Theorem shuffleArray_reaches_every_order
    (arr : loc) (xs target : list value) (h : gmap loc (list value)) :
  h !! arr = Some xs → target ≡ₚ xs →
  ∃ r : nat → draw,
    heap (shuffleArray arr (Mem h r)).2 !! (shuffleArray arr (Mem h r)).1
    = Some target.
Proof.
  intros Ha Hperm.
  assert (∃ r : nat → draw, shuffled (length xs - 1) r xs = target)
    as [r Hr].
  { destruct (decide (length xs = 0)) as [E|Hne].
    - apply nil_length_inv in E as ->.
      apply Permutation_nil_r in Hperm as ->. by exists (λ _, half).
    - apply shuffled_reaches.
      + by apply Permutation_length.
      + lia.
      + rewrite !take_ge; [done|lia|].
        rewrite (Permutation_length Hperm). lia.
      + rewrite !drop_ge; [done|lia|].
        rewrite (Permutation_length Hperm). lia. }
  exists r. rewrite (shuffleArray_eq _ _ _ _ Ha). cbn [fst snd heap].
  by rewrite lookup_insert_eq, Hr.
Qed.

Lemma shuffleArray_reaches_every_order_witness :
  ∃ r : nat → draw,
    heap (shuffleArray 0 (Mem {[ 0 := [str "A"; str "B"; str "C"] ]} r)).2
      !! (shuffleArray 0 (Mem {[ 0 := [str "A"; str "B"; str "C"] ]} r)).1
    = Some [str "B"; str "A"; str "C"].
Proof.
  apply (shuffleArray_reaches_every_order 0 [str "A"; str "B"; str "C"]
           [str "B"; str "A"; str "C"] {[ 0 := [str "A"; str "B"; str "C"] ]}).
  - reflexivity.
  - apply perm_swap.
Defined.

Lemma orderedForWinner_eq (names : loc) (winnerIndex : Z)
    (h : gmap loc (list value)) (r : nat → draw) (ns : list value) :
  h !! names = Some ns → ns ≠ [] →
  let rest := splice ns winnerIndex 1 in
  let h1 := <[fresh (dom h) := rest]> h in
  let sh := shuffled (length rest - 1) r rest in
  let h2 := <[fresh (dom h1) := sh]> h1 in
  orderedForWinner names winnerIndex (Mem h r)
  = (fresh (dom h2),
     Mem (<[fresh (dom h2) := get ns winnerIndex :: sh]> h2)
         (λ n, r (length rest - 1 + n))).
Proof.
  intros Hn Hne rest h1 sh h2. unfold orderedForWinner.
  unfold bind at 1. unfold read at 1. cbn [heap]. rewrite Hn.
  cbn [from_option Datatypes.id].
  destruct (Nat.eqb_spec (length ns) 0) as [E|_]; [by destruct ns|].
  unfold bind at 1. unfold alloc at 1. cbn [heap rng].
  unfold bind at 1. unfold modify at 1. cbn [heap rng].
  rewrite lookup_insert_eq. cbn [from_option Datatypes.id].
  rewrite insert_insert_eq. fold rest. fold h1.
  unfold bind at 1.
  rewrite (shuffleArray_eq _ _ _ rest) by apply lookup_insert_eq.
  unfold bind at 1. unfold read at 1. cbn [heap]. rewrite lookup_insert_eq.
  cbn [from_option Datatypes.id]. reflexivity.
Qed.

(** X7. Any presentation order with the winner first can come out of
    [orderedForWinner]: for a valid index and each permutation [others] of
    the names other than the winner there are draws with which the result is
    the winner followed by exactly [others]. *)
Theorem orderedForWinner_reaches_every_order
    (names : loc) (winnerIndex : Z) (ns others : list value)
    (h : gmap loc (list value)) :
  h !! names = Some ns →
  (0 ≤ winnerIndex < Z.of_nat (length ns))%Z →
  others ≡ₚ delete (Z.to_nat winnerIndex) ns →
  ∃ r : nat → draw,
    heap (orderedForWinner names winnerIndex (Mem h r)).2
      !! (orderedForWinner names winnerIndex (Mem h r)).1
    = Some (get ns winnerIndex :: others).
Proof.
  intros Hn Hi Hperm. rewrite <- splice_one in Hperm by done.
  set (rest := splice ns winnerIndex 1) in *.
  assert (∃ r : nat → draw, shuffled (length rest - 1) r rest = others)
    as [r Hr].
  { destruct (decide (length rest = 0)) as [E|Hne].
    - apply nil_length_inv in E. rewrite E in *.
      apply Permutation_nil_r in Hperm as ->. by exists (λ _, half).
    - apply shuffled_reaches.
      + by apply Permutation_length.
      + lia.
      + rewrite !take_ge; [done|lia|].
        rewrite (Permutation_length Hperm). lia.
      + rewrite !drop_ge; [done|lia|].
        rewrite (Permutation_length Hperm). lia. }
  exists r. rewrite (orderedForWinner_eq names winnerIndex h r ns Hn)
    by (destruct ns; [cbn in Hi; lia|done]).
  cbn [fst snd heap]. fold rest. by rewrite lookup_insert_eq, Hr.
Qed.

Lemma orderedForWinner_reaches_every_order_witness :
  ∃ r : nat → draw,
    heap (orderedForWinner 0 1
            (Mem {[ 0 := [str "A"; str "B"; str "C"] ]} r)).2
      !! (orderedForWinner 0 1
            (Mem {[ 0 := [str "A"; str "B"; str "C"] ]} r)).1
    = Some (get [str "A"; str "B"; str "C"] 1 :: [str "C"; str "A"]).
Proof.
  apply (orderedForWinner_reaches_every_order 0 1 [str "A"; str "B"; str "C"]
           [str "C"; str "A"] {[ 0 := [str "A"; str "B"; str "C"] ]}).
  - reflexivity.
  - simpl. lia.
  - apply perm_swap.
Defined.

(** X8. [orderedForWinner] on N >= 1 names with a valid index reads exactly
    N - 2 draws of the random source (none when N is 1 or 2). *)
Theorem orderedForWinner_draws
    (names : loc) (winnerIndex : Z) (ns : list value) (s : mem) :
  heap s !! names = Some ns →
  (0 ≤ winnerIndex < Z.of_nat (length ns))%Z →
  ∀ n, rng (orderedForWinner names winnerIndex s).2 n
       = rng s (length ns - 2 + n).
Proof.
  intros Hn Hi n. destruct s as [h r]. cbn [heap rng] in *.
  rewrite (orderedForWinner_eq names winnerIndex h r ns Hn)
    by (destruct ns; [cbn in Hi; lia|done]).
  cbn [snd rng]. rewrite splice_one by done.
  rewrite length_delete by (apply lookup_lt_is_Some_2; lia).
  f_equal. lia.
Qed.

Lemma orderedForWinner_draws_witness :
  rng (orderedForWinner 0 2 mem_abcd).2 0 = rng mem_abcd (4 - 2 + 0).
Proof.
  apply (orderedForWinner_draws 0 2
           [str "A"; str "B"; str "C"; str "D"] mem_abcd).
  - reflexivity.
  - simpl. lia.
Defined.

(** ** Which draws give which index *)

(** X9. On a pool of N >= 1 elements every index can be drawn, and a larger
    draw never gives a smaller index: for each k in [0, N) there is a draw
    of [Math.random()] with which [spinWheel] returns k, and when one draw
    is at most another the index returned for it is at most the index
    returned for the other. *)
Theorem spinWheel_monotone_onto
    (users : loc) (a : list value) (h : gmap loc (list value)) :
  h !! users = Some a → 1 ≤ length a →
  (∀ k : Z, (0 ≤ k < Z.of_nat (length a))%Z →
     ∃ d : draw, ∀ r : nat → draw, r 0 = d →
       (spinWheel users (Mem h r)).1 = Some k)
  ∧ (∀ r r' : nat → draw,
       (draw_val (r 0%nat) <= draw_val (r' 0%nat))%Q →
       ∃ i i' : Z,
         (spinWheel users (Mem h r)).1 = Some i
         ∧ (spinWheel users (Mem h r')).1 = Some i'
         ∧ (i ≤ i')%Z).
Proof.
  intros H Hlen. split.
  - intros k Hk.
    destruct (index_draw (Z.to_nat k) (length a)) as [d Hd]; [lia|].
    exists d. intros r Hr.
    rewrite (spinWheel_draw _ _ _ _ H Hlen). cbn [fst].
    rewrite Hr, Hd. f_equal. lia.
  - intros r r' Hle.
    rewrite !(spinWheel_draw _ _ _ _ H Hlen). cbn [fst].
    eexists _, _. split; [done|]. split; [done|].
    unfold floor_mul. apply Qfloor_resp_le.
    apply Qmult_le_compat_r; [done|].
    change 0%Q with (inject_Z 0). rewrite <- Zle_Qle. lia.
Qed.

Lemma spinWheel_monotone_onto_witness :
  ∃ d : draw, ∀ r : nat → draw, r 0 = d →
    (spinWheel 0 (Mem {[ 0 := [str "A"; str "B"; str "C"] ]} r)).1
    = Some 2%Z.
Proof.
  refine (proj1 (spinWheel_monotone_onto 0 [str "A"; str "B"; str "C"]
                   {[ 0 := [str "A"; str "B"; str "C"] ]} _ _) 2%Z _).
  - reflexivity.
  - simpl. lia.
  - simpl. lia.
Defined.

(** ** The drawn wheel and the landing *)

Section Wheel.
Local Open Scope R_scope.

Lemma anglePerSegment_pos (len : nat) :
  (1 ≤ len)%nat → 0 < anglePerSegment len.
Proof.
  intros Hlen. unfold anglePerSegment.
  apply Rdiv_lt_0_compat; [pose proof PI_RGT_0; lra|].
  apply lt_0_INR. lia.
Qed.

Lemma anglePerSegment_total (len : nat) :
  (1 ≤ len)%nat → INR len * anglePerSegment len = 2 * PI.
Proof.
  intros Hlen. unfold anglePerSegment. field.
  apply not_0_INR. lia.
Qed.

(** X10. The segments [createWheelImage] draws tile the circle: segment 0
    starts at the top (-pi/2), each segment ends where the next one starts,
    the last one ends a full turn after the first one started, and the
    mid-angle at which a segment's name is drawn is the mid-angle
    [createSpinningAnimation] computes for that slot. *)
Theorem wheel_segments_tile (len i : nat) :
  (1 ≤ len)%nat →
  startAngle len 0 = - (PI / 2)
  ∧ endAngle len i = startAngle len (S i)
  ∧ endAngle len (len - 1) = startAngle len 0 + 2 * PI
  ∧ midAngle len i = winnerMidAngle len (Z.of_nat i).
Proof.
  intros Hlen. pose proof (anglePerSegment_total len Hlen) as Htot.
  unfold midAngle, startAngle, endAngle, winnerMidAngle.
  rewrite <- INR_IZR_INZ, S_INR. split_and!.
  - simpl. lra.
  - lra.
  - replace (INR (len - 1) + 1) with (INR len)
      by (rewrite minus_INR by lia; simpl; lra).
    simpl. lra.
  - lra.
Qed.

Lemma wheel_segments_tile_witness :
  endAngle 8 7 = startAngle 8 0 + 2 * PI.
Proof.
  apply (proj1 (proj2 (proj2 (wheel_segments_tile 8 7 ltac:(lia))))).
Defined.

(** X11. For a non-empty list and an index in range the landing rotation of
    [createSpinningAnimation] lies strictly between 6.5*pi and 8.5*pi: the
    wheel turns forward, by more than three and a quarter and less than four
    and a quarter turns. *)
Theorem final_rotation_range (len : nat) (winnerIndex : Z) :
  (1 ≤ len)%nat → (0 ≤ winnerIndex < Z.of_nat len)%Z →
  13 * PI / 2 < finalRotationRad FIXED_ROTATIONS POINTER_ANGLE len winnerIndex
  ∧ finalRotationRad FIXED_ROTATIONS POINTER_ANGLE len winnerIndex
    < 17 * PI / 2.
Proof.
  intros Hlen [Hlo Hhi].
  pose proof (anglePerSegment_pos len Hlen) as Hpos.
  pose proof (anglePerSegment_total len Hlen) as Htot.
  unfold finalRotationRad, winnerMidAngle, FIXED_ROTATIONS, POINTER_ANGLE.
  set (a := anglePerSegment len) in *.
  assert (H0 : 0 <= IZR winnerIndex) by (by apply IZR_le).
  assert (H1 : IZR winnerIndex + 1 <= INR len).
  { rewrite INR_IZR_INZ, <- plus_IZR. apply IZR_le. lia. }
  assert (0 <= IZR winnerIndex * a) by (apply Rmult_le_pos; lra).
  assert ((IZR winnerIndex + 1) * a <= INR len * a)
    by (apply Rmult_le_compat_r; lra).
  pose proof PI_RGT_0. split; lra.
Qed.

Lemma final_rotation_range_witness :
  13 * PI / 2 < finalRotationRad FIXED_ROTATIONS POINTER_ANGLE 8 0
  ∧ finalRotationRad FIXED_ROTATIONS POINTER_ANGLE 8 0 < 17 * PI / 2.
Proof.
  apply (final_rotation_range 8 0).
  - lia.
  - simpl. lia.
Defined.

(** X12. At the landing rotation the pointer points into the winner's
    segment, at its middle: the segment as drawn by [createWheelImage],
    turned by the final rotation, starts before and ends after the pointer
    angle plus [FIXED_ROTATIONS] whole turns, at equal distance from both. *)
Theorem pointer_inside_winner_segment (len i : nat) :
  (1 ≤ len)%nat → (i < len)%nat →
  let final :=
    finalRotationRad FIXED_ROTATIONS POINTER_ANGLE len (Z.of_nat i) in
  let pointer := POINTER_ANGLE + IZR FIXED_ROTATIONS * (2 * PI) in
  startAngle len i + final < pointer
  ∧ pointer < endAngle len i + final
  ∧ pointer - (startAngle len i + final) = (endAngle len i + final) - pointer.
Proof.
  intros Hlen _ final pointer.
  pose proof (anglePerSegment_pos len Hlen) as Hpos.
  unfold final, pointer, finalRotationRad, winnerMidAngle, startAngle, endAngle.
  rewrite <- INR_IZR_INZ.
  split_and!; lra.
Qed.

Lemma pointer_inside_winner_segment_witness :
  startAngle 8 0 + finalRotationRad FIXED_ROTATIONS POINTER_ANGLE 8 0
  < POINTER_ANGLE + IZR FIXED_ROTATIONS * (2 * PI).
Proof.
  apply (pointer_inside_winner_segment 8 0); lia.
Defined.

End Wheel.

(** ** The frames of the animation *)

Section Frames.
Local Open Scope R_scope.

Lemma easeOutCubic_0 : easeOutCubic 0 = 0.
Proof. unfold easeOutCubic. lra. Qed.

Lemma easeOutCubic_1 : easeOutCubic 1 = 1.
Proof. unfold easeOutCubic. lra. Qed.

Lemma progress_range (k : nat) :
  (k < totalFrames)%nat → 0 <= progress k <= 1.
Proof.
  intros Hk. unfold progress. rewrite INR_totalFrames.
  assert (0 <= INR k) by apply pos_INR.
  assert (INR k <= 59).
  { replace 59 with (INR 59) by (simpl; lra). apply le_INR.
    unfold totalFrames in Hk. lia. }
  lra.
Qed.

Lemma frame_angle_range (finalRotation : R) (k : nat) :
  0 <= finalRotation → (k < totalFrames)%nat →
  0 <= frame_angle finalRotation k <= finalRotation.
Proof.
  intros Hpos Hk. unfold frame_angle.
  destruct (progress_range k Hk) as [H0 H1].
  pose proof (easeOutCubic_mono _ _ H0) as Hlo. rewrite easeOutCubic_0 in Hlo.
  pose proof (easeOutCubic_mono _ _ H1) as Hhi. rewrite easeOutCubic_1 in Hhi.
  split.
  - by apply Rmult_le_pos.
  - rewrite <- (Rmult_1_l finalRotation) at 2.
    by apply Rmult_le_compat_r.
Qed.

(** X13. In the animation [createSpinningAnimation] posts for an index in
    range, the wheel only turns forward and never past its landing: the
    rotations of the frames are non-decreasing from frame to frame and stay
    between 0 and the final rotation. *)
Theorem animation_turns_forward {channel : Type}
    (names : list value) (winnerIndex : Z) (ch : channel)
    (msg : spin_message channel) (j k : nat) (fj fk : gif_frame) :
  createSpinningAnimation names winnerIndex ch = Some msg →
  (0 ≤ winnerIndex < Z.of_nat (length names))%Z →
  (j ≤ k)%nat →
  frames msg !! j = Some fj → frames msg !! k = Some fk →
  0 <= rotation_of (image fj)
  ∧ rotation_of (image fj) <= rotation_of (image fk)
  ∧ rotation_of (image fk)
    <= finalRotationRad FIXED_ROTATIONS POINTER_ANGLE (length names)
         winnerIndex.
Proof.
  intros Hmsg Hi Hjk Hj Hk.
  destruct (createSpinningAnimation_frame _ _ _ _ _ _ Hmsg Hj)
    as (_ & Hjlt & ->).
  destruct (createSpinningAnimation_frame _ _ _ _ _ _ Hmsg Hk)
    as (_ & Hklt & ->).
  cbn [image rotation_of].
  assert (Hfinal :
    0 <= finalRotationRad FIXED_ROTATIONS POINTER_ANGLE (length names)
           winnerIndex).
  { destruct (final_rotation_range (length names) winnerIndex) as [Hlo _];
      [lia|done|]. pose proof PI_RGT_0. lra. }
  split_and!.
  - by apply frame_angle_range.
  - unfold frame_angle. apply Rmult_le_compat_r; [done|].
    by apply easeOutCubic_mono, progress_mono.
  - by apply frame_angle_range.
Qed.

End Frames.

Lemma animation_turns_forward_witness :
  (0 <= rotation_of
          (image (spin_frame [str "A"; str "B"] 0
                    (finalRotationRad FIXED_ROTATIONS POINTER_ANGLE 2 0) 0)))%R.
Proof.
  apply (animation_turns_forward [str "A"; str "B"] 0 tt
           (SpinMessage tt
              (spin_frame [str "A"; str "B"] 0
                 (finalRotationRad FIXED_ROTATIONS POINTER_ANGLE 2 0)
               <$> seq 0 totalFrames))
           0 59 _
           (spin_frame [str "A"; str "B"] 0
              (finalRotationRad FIXED_ROTATIONS POINTER_ANGLE 2 0) 59)).
  - reflexivity.
  - simpl. lia.
  - lia.
  - reflexivity.
  - reflexivity.
Defined.

(** X14. [createSpinningAnimation] returns null exactly for an empty list.
    Otherwise it posts to the channel it was given a GIF of exactly 60
    frames; frame k carries the delay of the schedule, and the winner index
    is highlighted in the last five frames (55 to 59) and in no other. *)
Theorem createSpinningAnimation_posts {channel : Type}
    (names : list value) (winnerIndex : Z) (ch : channel) :
  (createSpinningAnimation names winnerIndex ch = None ↔ names = [])
  ∧ ∀ msg : spin_message channel,
      createSpinningAnimation names winnerIndex ch = Some msg →
      to msg = ch
      ∧ length (frames msg) = 60
      ∧ ∀ k frame, frames msg !! k = Some frame →
          delay frame = frame_delay k
          ∧ ∃ angle,
              image frame
              = Wheel names (if 55 <=? k then Some winnerIndex else None)
                      800 angle.
Proof.
  split.
  - unfold createSpinningAnimation.
    destruct names as [|n names]; [done|]. cbn. split; done.
  - intros msg Hmsg. split_and!.
    + revert Hmsg. unfold createSpinningAnimation.
      destruct (length names =? 0); [done|].
      intros Heq. apply (inj Some) in Heq. by subst msg.
    + revert Hmsg. unfold createSpinningAnimation.
      destruct (length names =? 0); [done|].
      intros Heq. apply (inj Some) in Heq. subst msg. cbn [frames].
      by rewrite length_fmap, length_seq.
    + intros k frame Hk.
      destruct (createSpinningAnimation_frame _ _ _ _ _ _ Hmsg Hk)
        as (_ & _ & ->).
      split; [done|]. by eexists.
Qed.

(** X15. The delay schedule of the animation never shortens a delay: 30 ms
    for each of the first 40 frames, then 50 ms growing by 15 ms with every
    frame, up to 335 ms for the last one. *)
Theorem frame_delay_schedule (j k : nat) :
  j ≤ k → k < totalFrames →
  (frame_delay j ≤ frame_delay k)%Z
  ∧ (30 ≤ frame_delay k ≤ 335)%Z
  ∧ (k < 40 → frame_delay k = 30%Z)
  ∧ (40 ≤ k → frame_delay k = (50 + 15 * (Z.of_nat k - 40))%Z).
Proof.
  intros Hjk Hk. unfold frame_delay, totalFrames, slowDownFrames in *.
  destruct (Nat.ltb_spec j (60 - 20)), (Nat.ltb_spec k (60 - 20));
    split_and!; lia.
Qed.

Lemma frame_delay_schedule_witness :
  (frame_delay 39 ≤ frame_delay 59)%Z
  ∧ (30 ≤ frame_delay 59 ≤ 335)%Z
  ∧ (59 < 40 → frame_delay 59 = 30%Z)
  ∧ (40 ≤ 59 → frame_delay 59 = (50 + 15 * (Z.of_nat 59 - 40))%Z).
Proof.
  apply (frame_delay_schedule 39 59).
  - lia.
  - unfold totalFrames. lia.
Defined.

(** ** The colours of the segments *)

(** X16. Whatever the segment index, [createWheelImage] finds a colour for
    it in the cycle of eight: three components, each within 0 .. 255 also
    after the highlight has raised them; and the highlight always changes
    the colour, so the winner's segment is told apart. *)
Theorem segment_color_in_range (i : nat) (winnerIndex : option Z) :
  length (segment_color i winnerIndex) = 3
  ∧ Forall (λ c, 0 ≤ c ≤ 255)%Z (segment_color i winnerIndex)
  ∧ segment_color i (Some (Z.of_nat i)) ≠ segment_color i None.
Proof.
  unfold segment_color.
  rewrite (decide_True (P := Some (Z.of_nat i) = Some (Z.of_nat i))) by done.
  rewrite (decide_False (P := None = Some (Z.of_nat i))) by done.
  assert (Hm : i mod length WHEEL_COLORS < 8).
  { apply Nat.mod_upper_bound. done. }
  set (m := i mod length WHEEL_COLORS) in *.
  do 8 (destruct m as [|m];
        [ split_and!; [by case_decide| case_decide; cbn; repeat constructor; lia
                      | cbn; discriminate ] |]).
  lia.
Qed.

(** ** Step 1 of !spin: bringing one member back *)

(** X17. With fewer than six members off the wheel, step 1 of [!spin] is
    skipped: nothing is drawn from the random source, no spin is posted, the
    cancel button is not consulted and no array changes. *)
Theorem spin_step1_skipped (offWheelUsers : loc) (users : list value)
    (w : world) :
  heap (memory w) !! offWheelUsers = Some users →
  length users < 6 →
  spin_step1 offWheelUsers w = (Skipped (length users), w).
Proof.
  intros Hl Hlen. unfold spin_step1.
  unfold bind at 1. unfold liftJs at 1, read at 1. rewrite Hl.
  cbn [from_option Datatypes.id].
  destruct (Nat.leb_spec 6 (length users)) as [?|_]; [lia|].
  by destruct w as [[h r] c ev].
Qed.

Lemma spin_step1_skipped_witness :
  spin_step1 0 world_three = (Skipped 3, world_three).
Proof.
  apply (spin_step1_skipped 0 [obj alice; obj bob; obj carol] world_three).
  - reflexivity.
  - simpl. lia.
Defined.



(** ** The announcement after the rounds *)



Example spin_three_final_winner :
  (spin_step2_announce 3 0 world_three).1 = Some (FinalWinner (obj alice)).
Proof. vm_compute. reflexivity. Qed.

(** ** The cancel button *)

Lemma collectCancel_spec (initiator : string) (presses : list interaction) :
  ((collectCancel initiator presses).1 = true
   ↔ ∃ i, i ∈ presses ∧ customId i = "spin_cancel" ∧ user_id i = initiator)
  ∧ ∀ u, OnlyIssuer u ∈ (collectCancel initiator presses).2
         ↔ u ≠ initiator
           ∧ ∃ i, i ∈ presses ∧ customId i = "spin_cancel" ∧ user_id i = u.
Proof.
  induction presses as [|i rest [IH1 IH2]].
  - split.
    + split; [done|]. intros (i & Hi & _). by apply elem_of_nil in Hi.
    + intros u. split.
      * intros Hu. by apply elem_of_nil in Hu.
      * intros (_ & i & Hi & _). by apply elem_of_nil in Hi.
  - cbn [collectCancel].
    destruct (collectCancel initiator rest) as [b rs]. cbn [fst snd] in *.
    destruct (String.eqb_spec (customId i) "spin_cancel") as [Eid|Nid];
      cbn [negb].
    + destruct (String.eqb_spec (user_id i) initiator) as [Eu|Nu]; cbn [negb].
      * cbn [fst snd]. split.
        -- split; [|done]. intros _. exists i. split_and!; [left|done|done].
        -- intros u. rewrite elem_of_cons, IH2. split.
           ++ intros [[=]|(Hne & i' & Hi' & ?)].
              split; [done|]. exists i'. split; [by right|done].
           ++ intros (Hne & i' & Hi' & Hc & Hu). right. split; [done|].
              apply elem_of_cons in Hi' as [->|Hi']; [congruence|].
              by exists i'.
      * cbn [fst snd]. split.
        -- rewrite IH1. split.
           ++ intros (i' & Hi' & ?). exists i'. split; [by right|done].
           ++ intros (i' & Hi' & Hc & Hu).
              apply elem_of_cons in Hi' as [->|Hi']; [done|]. by exists i'.
        -- intros u. rewrite elem_of_cons, IH2. split.
           ++ intros [[= ->]|(Hne & i' & Hi' & ?)].
              ** split; [done|]. exists i. split_and!; [left|done|done].
              ** split; [done|]. exists i'. split; [by right|done].
           ++ intros (Hne & i' & Hi' & Hc & Hu).
              apply elem_of_cons in Hi' as [->|Hi']; [by left; rewrite Hu|].
              right. split; [done|]. by exists i'.
    + cbn [fst snd]. split.
      * rewrite IH1. split.
        -- intros (i' & Hi' & ?). exists i'. split; [by right|done].
        -- intros (i' & Hi' & Hc & Hu).
           apply elem_of_cons in Hi' as [->|Hi']; [done|]. by exists i'.
      * intros u. rewrite IH2. split.
        -- intros (Hne & i' & Hi' & ?).
           split; [done|]. exists i'. split; [by right|done].
        -- intros (Hne & i' & Hi' & Hc & Hu). split; [done|].
           apply elem_of_cons in Hi' as [->|Hi']; [done|]. by exists i'.
Qed.

(** X20. Only the initiator can cancel a spin: [waitForCancelButton] resolves
    [true] exactly when a message was posted and one of the presses the
    collector hands over is the initiator's press on the Cancel button.  A
    press by anyone else never cancels; each such press on Cancel, before or
    after the initiator's, is answered with "Only the command issuer can
    cancel", and that answer goes to no one else, so never to the
    initiator. *)
Theorem cancel_only_by_initiator
    (spinMessage : bool) (initiator : string) (presses : list interaction) :
  ((cancelButton spinMessage initiator presses).1 = true
   ↔ spinMessage = true
     ∧ ∃ i, i ∈ presses ∧ customId i = "spin_cancel" ∧ user_id i = initiator)
  ∧ ∀ u, OnlyIssuer u ∈ (cancelButton spinMessage initiator presses).2
         ↔ spinMessage = true ∧ u ≠ initiator
           ∧ ∃ i, i ∈ presses ∧ customId i = "spin_cancel" ∧ user_id i = u.
Proof.
  unfold cancelButton.
  destruct (collectCancel_spec initiator presses) as [H1 H2].
  destruct spinMessage.
  - split.
    + rewrite H1. split; [by intros ?|by intros [_ ?]].
    + intros u. rewrite H2. split; [by intros ?|by intros [_ ?]].
  - cbn. split; [split; [done|by intros [? _]]|].
    intros u. split; [|by intros [? _]].
    intros Hu. by apply elem_of_nil in Hu.
Qed.

Example cancel_by_someone_else :
  cancelButton true "1001"
    [Interaction "spin_cancel" "1002"; Interaction "other" "1001"]
  = (false, [OnlyIssuer "1002"]).
Proof. reflexivity. Qed.

Example cancel_by_initiator :
  cancelButton true "1001"
    [Interaction "spin_cancel" "1002"; Interaction "spin_cancel" "1001";
     Interaction "spin_cancel" "1003"]
  = (true, [OnlyIssuer "1002"; SpinCancelledUpdate; OnlyIssuer "1003"]).
Proof. reflexivity. Qed.

(** ** The member cache *)

(** X21. [fetchMembersIfNeeded] fetches the members of a guild exactly when
    the guild has no cache entry or its entry is older than [ttl]; a fetch
    stamps the entry with the time read after it.  After any call the guild
    has an entry, so a second call whose clock reading is within [ttl] of
    that entry fetches nothing.  Entries of other guilds are never
    touched. *)
Theorem fetchMembers_uses_cache (guild_id : string) (ttl : Z)
    (s : cache_world) :
  let s1 := (fetchMembersIfNeeded guild_id ttl s).2 in
  let s2 := (fetchMembersIfNeeded guild_id ttl s1).2 in
  (fetched s1 = fetched s ++ [guild_id]
   ↔ match memberCache s !! guild_id with
     | None => True
     | Some ts => (ttl < clock s 0 - ts)%Z
     end)
  ∧ (fetched s1 = fetched s
     ↔ ∃ ts, memberCache s !! guild_id = Some ts ∧ (clock s 0 - ts ≤ ttl)%Z)
  ∧ (∃ ts, memberCache s1 !! guild_id = Some ts
           ∧ ((clock s1 0 - ts ≤ ttl)%Z →
              fetched s2 = fetched s1 ∧ memberCache s2 = memberCache s1))
  ∧ ∀ g, g ≠ guild_id → memberCache s1 !! g = memberCache s !! g.
Proof.
  intros s1 s2.
  assert (Hne : ∀ l : list string, l ++ [guild_id] ≠ l).
  { intros l E. apply (f_equal length) in E. rewrite length_app in E.
    cbn in E. lia. }
  assert (Hstep : ∀ t : cache_world,
    ∀ ts, memberCache t !! guild_id = Some ts → (clock t 0 - ts ≤ ttl)%Z →
      fetched (fetchMembersIfNeeded guild_id ttl t).2 = fetched t
      ∧ memberCache (fetchMembersIfNeeded guild_id ttl t).2 = memberCache t).
  { intros t ts Hts Hfresh. unfold fetchMembersIfNeeded. rewrite Hts.
    destruct (Z.ltb_spec ttl (clock t 0 - ts)); [lia|done]. }
  unfold s2, s1, fetchMembersIfNeeded.
  destruct (memberCache s !! guild_id) as [ts|] eqn:Hts.
  - destruct (Z.ltb_spec ttl (clock s 0 - ts)) as [Hold|Hfresh];
      cbn [snd fetched memberCache clock fetch_and_stamp].
    + split_and!.
      * done.
      * split; [intros E; by apply Hne in E|]. intros (ts' & [= <-] & ?). lia.
      * exists (clock s 1). split; [apply lookup_insert_eq|].
        intros Hf. apply (Hstep (fetch_and_stamp guild_id
          (CacheWorld (memberCache s) (λ n, clock s (S n)) (fetched s)))
          (clock s 1)); [apply lookup_insert_eq|done].
      * intros g Hg. by rewrite lookup_insert_ne.
    + split_and!.
      * split; [intros E; symmetry in E; by apply Hne in E|lia].
      * split; [|done]. intros _. by exists ts.
      * exists ts. split; [done|]. intros Hf.
        by apply (Hstep (CacheWorld (memberCache s) (λ n, clock s (S n))
                           (fetched s)) ts).
      * done.
  - cbn [snd fetched memberCache clock fetch_and_stamp]. split_and!.
    + done.
    + split; [intros E; by apply Hne in E|]. by intros (ts' & ? & ?).
    + exists (clock s 0). split; [apply lookup_insert_eq|].
      intros Hf. apply (Hstep (fetch_and_stamp guild_id s) (clock s 0));
        [apply lookup_insert_eq|done].
    + intros g Hg. by rewrite lookup_insert_ne.
Qed.

Example fetch_then_cached :
  fetched (bind (fetchMembersIfNeeded "g1" 60000)
                (λ _, fetchMembersIfNeeded "g1" 60000)
                (CacheWorld ∅ (λ n, 1000 * Z.of_nat n)%Z [])).2
  = ["g1"].
Proof. vm_compute. reflexivity. Qed.

(** ** What a round shows in the channel *)

Lemma spin_loop_round_log (fuel : nat) (l : loc) (roundNum : nat)
    (ms : list member) (h : gmap loc (list value)) r c ev :
  h !! l = Some (obj <$> ms) → 2 ≤ length ms →
  let wi := floor_mul (draw_val (r 0)) (length ms) in
  ∃ h1 r1 m sh,
    ms !! Z.to_nat wi = Some m
    ∧ (0 ≤ wi < Z.of_nat (length ms))%Z
    ∧ sh ≡ₚ (λ m, str (displayName m)) <$> delete (Z.to_nat wi) ms
    ∧ h1 !! l = Some (obj <$> ms)
    ∧ spin_loop (S fuel) l roundNum (World (Mem h r) c ev)
      = let shown :=
          ev ++ [Say_Round roundNum; Say_GettingReady;
                 Post_Spin (str (displayName m) :: sh) 0] in
        if c 0 then
          ((Some Cancelled, []),
           World (Mem h1 r1) (λ n, c (S n)) (shown ++ [Say_Cancelled]))
        else
          bind (spin_loop fuel l (S roundNum))
               (λ rest, ret (rest.1, Round (Some wi) (obj m) :: rest.2))
               (World (Mem (<[l := obj <$> delete (Z.to_nat wi) ms]> h1) r1)
                      (λ n, c (S n))
                      (shown ++ [Say_Removed (str (displayName m))])).
Proof.
  intros Hl Hlen wi.
  assert (Hwi : (0 ≤ wi < Z.of_nat (length ms))%Z).
  { apply draw_index_range. lia. }
  destruct (lookup_lt_is_Some_2 ms (Z.to_nat wi)) as [m Hm]; [lia|].
  assert (Hwinner : get (obj <$> ms) wi = obj m).
  { apply get_lookup; [lia|]. by rewrite list_lookup_fmap, Hm. }
  set (ns := (λ m, str (displayName m)) <$> ms).
  assert (Hname : get ns wi = str (displayName m)).
  { apply get_lookup; [lia|]. unfold ns. by rewrite list_lookup_fmap, Hm. }
  set (names := fresh (dom h)).
  assert (Hnames : h !! names = None) by apply not_elem_of_dom, is_fresh.
  assert (Hnl : names ≠ l) by (intros ->; congruence).
  set (h_a := <[names := ns]> h).
  assert (Hl_a : h_a !! l = Some (obj <$> ms))
    by (unfold h_a; rewrite lookup_insert_ne; done).
  destruct (orderedForWinner_spec names wi (Mem h_a (λ n, r (S n))))
    as (o & sh & out & xs & r1 & Ho & Hsh & Hout & _ & _ & _ & Hperm & Heq).
  { cbn [heap]. unfold h_a. rewrite lookup_insert_eq. cbn.
    unfold ns. destruct ms; [cbn in Hlen; lia | done]. }
  cbn [heap] in *. unfold h_a in Hperm, Heq at 1 2.
  rewrite lookup_insert_eq in Hperm, Heq. cbn [from_option Datatypes.id] in *.
  rewrite Hname in Heq.
  rewrite splice_one in Hperm by (unfold ns; rewrite length_fmap; lia).
  unfold ns in Hperm. rewrite <- list_fmap_delete in Hperm.
  set (h1 := <[out := _]> _) in Heq.
  assert (Hframe : ∀ l' a, h !! l' = Some a → h1 !! l' = Some a).
  { intros l' a Hl'. unfold h1.
    assert (Hl'a : h_a !! l' = Some a).
    { unfold h_a. rewrite lookup_insert_ne; [done|]. intros <-. congruence. }
    rewrite !lookup_insert_ne by congruence. done. }
  fold h_a in Heq.
  exists h1, r1, m, xs.
  split; [done|]. split; [done|]. split; [done|]. split; [by apply Hframe|].
  cbn [spin_loop].
  run_read Hl. rewrite length_fmap.
  destruct (Nat.ltb_spec 1 (length ms)) as [_|?]; [|lia].
  rewrite mapM_displayName. fold ns.
  run_alloc. fold names. fold h_a.
  run_spinWheel Hl_a. rewrite length_fmap. fold wi.
  run_read Hl_a. run_send. run_send.
  unfold bind at 1. unfold liftJs at 1. cbn [memory cancel sent].
  rewrite Heq.
  unfold bind at 1. unfold sendSpin at 1.
  unfold bind at 1. unfold liftJs at 1, read at 1.
  cbn [memory heap cancel sent].
  unfold h1 at 1 2. rewrite lookup_insert_eq.
  cbn [from_option Datatypes.id length Nat.eqb].
  run_send. unfold ret at 1.
  unfold bind at 1. unfold waitForCancelButton at 1. cbn [memory cancel sent].
  cbn zeta. rewrite <- !app_assoc. cbn [app].
  destruct (c 0).
  - run_send. unfold ret. by rewrite <- !app_assoc.
  - rewrite Hwinner. cbn [displayName_of].
    run_send. run_modify (Hframe _ _ Hl).
    rewrite splice_one by (rewrite length_fmap; lia).
    rewrite list_fmap_delete. by rewrite <- !app_assoc.
Qed.



Lemma removed_announced_app (evs evs' : list event) :
  removed_announced (evs ++ evs')
  = removed_announced evs ++ removed_announced evs'.
Proof. apply omap_app. Qed.

Lemma spin_loop_announces (fuel : nat) :
  ∀ (ms : list member) (l : loc) (roundNum : nat) (w : world),
    heap (memory w) !! l = Some (obj <$> ms) →
    1 ≤ length ms → length ms ≤ fuel →
    ∃ how rounds w',
      spin_loop fuel l roundNum w = ((Some how, rounds), w')
      ∧ removed_announced (sent w')
        = removed_announced (sent w)
            ++ omap (λ r, displayName_of (winner r)) rounds.
Proof.
  induction fuel as [|fuel IH]; intros ms l roundNum w Hl H1 Hfuel; [lia|].
  destruct w as [[h r] c ev]. cbn [memory heap cancel sent] in *.
  destruct (decide (length ms = 1)) as [E1|Hne].
  - exists Finished, [], (World (Mem h r) c ev). split.
    + cbn [spin_loop]. run_read Hl. by rewrite length_fmap, E1.
    + cbn. by rewrite app_nil_r.
  - destruct (spin_loop_round_log fuel l roundNum ms h r c ev Hl)
      as (h1 & r1 & m & sh & Hm & Hwi & _ & _ & ->); [lia|].
    set (wi := floor_mul (draw_val (r 0)) (length ms)) in *. cbn zeta.
    destruct (c 0).
    + eexists Cancelled, [], _. split; [done|]. cbn [sent omap].
      rewrite !removed_announced_app. cbn. by rewrite !app_nil_r.
    + set (w1 := World _ _ _).
      destruct (IH (delete (Z.to_nat wi) ms) l (S roundNum) w1)
        as (how & rounds & w' & Hrun & Hlog).
      { cbn. apply lookup_insert_eq. }
      { rewrite length_delete by eauto. lia. }
      { rewrite length_delete by eauto. lia. }
      exists how, (Round (Some wi) (obj m) :: rounds), w'.
      unfold bind. rewrite Hrun. cbn [fst snd ret]. split; [done|].
      rewrite Hlog. unfold w1. cbn [sent].
      rewrite !removed_announced_app. cbn. by rewrite app_nil_r, <- app_assoc.
Qed.

(** X23. In the channel the members removed by the [!spin] rounds are
    announced once each, by display name and in the order of the rounds: the
    "has been removed" notices of step 2 are exactly the display names of
    the winners of the rounds played. *)
Theorem spin_removed_are_announced
    (fuel : nat) (onWheelUsers : loc) (ms : list member) (w : world) :
  heap (memory w) !! onWheelUsers = Some (obj <$> ms) →
  2 ≤ length ms → length ms ≤ fuel →
  ∃ remaining how rounds,
    (spin_step2 fuel onWheelUsers w).1 = Ran remaining (Some how) rounds
    ∧ removed_announced (sent (spin_step2 fuel onWheelUsers w).2)
      = removed_announced (sent w)
          ++ omap (λ r, displayName_of (winner r)) rounds.
Proof.
  intros Hl H2 Hfuel. destruct w as [[h r] c ev]. cbn [memory heap sent] in *.
  set (l := fresh (dom h)).
  set (w1 := World (Mem (<[l := obj <$> ms]> h) r) c
                   (ev ++ [Say_SpinningFor (length ms)])).
  destruct (spin_loop_announces fuel ms l 1 w1)
    as (how & rounds & w' & Hrun & Hlog);
    [apply lookup_insert_eq | lia | done |].
  assert (Heq : spin_step2 fuel onWheelUsers (World (Mem h r) c ev)
                = (Ran l (Some how) rounds, w')).
  { unfold spin_step2. run_read Hl. rewrite length_fmap.
    destruct (Nat.ltb_spec (length ms) 2) as [?|_]; [lia|].
    run_send. run_alloc. fold l. fold w1.
    unfold bind, ret. by rewrite Hrun. }
  rewrite Heq. cbn [fst snd]. exists l, how, rounds. split; [done|].
  rewrite Hlog. unfold w1. cbn [sent].
  rewrite removed_announced_app. cbn. by rewrite app_nil_r.
Qed.

Lemma spin_removed_are_announced_witness :
  ∃ remaining how rounds,
    (spin_step2 3 0 world_three).1 = Ran remaining (Some how) rounds
    ∧ removed_announced (sent (spin_step2 3 0 world_three).2)
      = removed_announced [] ++ omap (λ r, displayName_of (winner r)) rounds.
Proof.
  apply (spin_removed_are_announced 3 0 [alice; bob; carol] world_three).
  - reflexivity.
  - simpl. lia.
  - simpl. lia.
Defined.

Example spin_three_announcements :
  removed_announced (sent (spin_step2 3 0 world_three).2)
  = [str "Bob"; str "Carol"].
Proof. vm_compute. reflexivity. Qed.

(** ** Labels of the wheel *)

Lemma fit_font_from (too_wide : nat → bool) (n : nat) :
  8 ≤ n →
  8 ≤ fit_font too_wide n ≤ n
  ∧ (fit_font too_wide n = 8 ∨ too_wide (fit_font too_wide n) = false)
  ∧ ∀ k, fit_font too_wide n < k ≤ n → too_wide k = true.
Proof.
  induction n as [|n IH]; intros Hn; [lia|].
  cbn [fit_font].
  destruct (Nat.ltb_spec 8 (S n)) as [Hgt|Hle]; cbn [andb].
  - destruct (too_wide (S n)) eqn:Hw.
    + destruct IH as (Hr & Hfit & Hall); [lia|].
      split; [lia|]. split; [done|].
      intros k Hk. destruct (decide (k = S n)) as [->|?]; [done|].
      apply Hall. lia.
    + split; [lia|]. split; [by right|]. intros k Hk. lia.
  - split; [lia|]. split; [left; lia|]. intros k Hk. lia.
Qed.

(** X24. The font fitting of [createWheelImage] always ends, with a size
    between 8 and 20: it picks the largest size from 20 down to 9 at which
    the name is not too wide, and 8 when there is none. *)
Theorem fit_font_largest (too_wide : nat → bool) :
  8 ≤ fit_font too_wide 20 ≤ 20
  ∧ (fit_font too_wide 20 = 8 ∨ too_wide (fit_font too_wide 20) = false)
  ∧ ∀ k, fit_font too_wide 20 < k ≤ 20 → too_wide k = true.
Proof. apply fit_font_from. lia. Qed.

(** ** Members holding a role *)

(** X25. [getUsersWithRole] returns no one when the guild has no role of
    that name; otherwise exactly the members of the guild that hold the role
    [getRole] finds, in the guild's order.  The role found is one of the
    guild's whose lower-cased name is the lower-cased [roleName], so the
    result does not depend on the case of [roleName]. *)
Theorem getUsersWithRole_holders (toLowerCase : string → string) (g : guild)
    (roleName : string) :
  (getRole toLowerCase g roleName = None →
   getUsersWithRole toLowerCase g roleName = [])
  ∧ (∀ r, getRole toLowerCase g roleName = Some r →
       r ∈ guild_roles g
       ∧ toLowerCase (role_name r) = toLowerCase roleName
       ∧ ∀ m, m ∈ getUsersWithRole toLowerCase g roleName
              ↔ m ∈ guild_members g ∧ role_id r ∈ roles_held m)
  ∧ getUsersWithRole toLowerCase g roleName `sublist_of` guild_members g
  ∧ ∀ other, toLowerCase other = toLowerCase roleName →
       getUsersWithRole toLowerCase g other
       = getUsersWithRole toLowerCase g roleName.
Proof.
  split_and!.
  - unfold getUsersWithRole. by intros ->.
  - intros r Hr. unfold getUsersWithRole. rewrite Hr.
    unfold getRole in Hr. apply find_some in Hr as [Hin Heq].
    apply String.eqb_eq in Heq.
    split; [by apply list_elem_of_In|]. split; [done|].
    intros m. rewrite !list_elem_of_In, filter_In, bool_decide_eq_true.
    by rewrite list_elem_of_In.
  - unfold getUsersWithRole.
    destruct (getRole toLowerCase g roleName); [|apply sublist_nil_l].
    induction (guild_members g) as [|m l IH]; [done|]. cbn.
    destruct (bool_decide _); by constructor.
  - intros other Hother. unfold getUsersWithRole, getRole. by rewrite Hother.
Qed.

Lemma test3_rounds_witness :
  completes_tournament [str "A"; str "B"; str "C"; str "D"]
    (test3 4 0 world_abcd).
Proof.
  apply (test3_rounds 4 0 [str "A"; str "B"; str "C"; str "D"] world_abcd).
  - reflexivity.
  - simpl. lia.
  - simpl. lia.
Defined.
